(** * mongoose-api-helpers: query-string translation and pagination metadata

    A shallow embedding of [ApiFeatures] and [getPagination].

    Conventions of the embedding.
    - A JavaScript string is a [string]: a sequence of code units in the
      range 0..255.
    - The numbers that occur (page numbers, limits, counts) are integers;
      they are modelled as exact integers of [Z], extended with the
      non-finite values a division can produce.  Doubles agree with that
      on integers below 2^53.
    - The query handle of the object-document mapper is opaque to the
      library: it is modelled as the sequence of directives that were
      applied to it, in call order. *)

From Stdlib Require Import String Ascii List ZArith Lia Bool Arith.
From Stdlib Require Decimal DecimalNat DecimalString.
Import ListNotations.

Open Scope string_scope.
Open Scope Z_scope.

(** ** Numbers *)

(** A number that may be non-finite: the result of [Math.ceil(a / b)] on
    integers. *)
Inductive number : Type :=
  | Int (z : Z)
  | PosInf
  | NegInf
  | NaN.


(** [Math.ceil(a / b)] for integers [a] and [b].  A zero divisor gives
    [Infinity], [-Infinity] or [NaN] (for [0 / 0]) and [Math.ceil] maps each
    of those to itself; otherwise the quotient is a rational and its ceiling
    an integer. *)
Definition ceil_div (a b : Z) : number :=
  if b =? 0 then
    (if 0 <? a then PosInf else if a <? 0 then NegInf else NaN)
  else Int (- ((- a) / b)).

(** [x < n] for an integer [x]: every comparison with [NaN] is false. *)
Definition lt_number (x : Z) (n : number) : bool :=
  match n with
  | Int z => x <? z
  | PosInf => true
  | NegInf => false
  | NaN => false
  end.

(** ** Pagination metadata (types.ts, [PaginationInfo]) *)

Record PaginationInfo : Type := mkPaginationInfo {
  pi_total : Z;
  pi_pages : number;
  pi_currentPage : Z;
  pi_limit : Z;
  pi_hasNext : bool;
  pi_hasPrevious : bool;
  pi_nextPage : option Z;
  pi_previousPage : option Z
}.

Definition getPagination (total limit page : Z) : PaginationInfo :=
  let pages := ceil_div total limit in
  let hasNext := lt_number page pages in
  let hasPrevious := 1 <? page in
  {| pi_total := total;
     pi_pages := pages;
     pi_currentPage := page;
     pi_limit := limit;
     pi_hasNext := hasNext;
     pi_hasPrevious := hasPrevious;
     pi_nextPage := if hasNext then Some (page + 1) else None;
     pi_previousPage := if hasPrevious then Some (page - 1) else None |}.

(** ** Strings *)

Definition dquote : ascii := "034"%char.
Definition backslash : ascii := "\"%char.
Definition dollar : ascii := "$"%char.

Definition code (c : ascii) : nat := nat_of_ascii c.

Definition in_range (lo hi : nat) (c : ascii) : bool :=
  (Nat.leb lo (code c) && Nat.leb (code c) hi)%bool.

Definition is_digit (c : ascii) : bool := in_range 48 57 c.

(** The class [\w] of a regular expression without the unicode flag:
    [A-Za-z0-9_]. *)
Definition is_word (c : ascii) : bool :=
  (is_digit c || in_range 65 90 c || in_range 97 122 c || Nat.eqb (code c) 95)%bool.

Definition str1 (c : ascii) : string := String c EmptyString.

(** [s.split(sep)] for a one-character separator; never the empty list. *)
Fixpoint split (sep : ascii) (s : string) : list string :=
  match s with
  | EmptyString => [EmptyString]
  | String c r =>
      if Ascii.eqb c sep then EmptyString :: split sep r
      else match split sep r with
           | h :: t => String c h :: t
           | [] => [str1 c]
           end
  end.

(** ** parseInt(s, 10) *)

(** White space that [parseInt] strips from the start of its argument
    (TAB, LF, VT, FF, CR, SP, NBSP among the code units 0..255). *)
Definition is_js_space (c : ascii) : bool :=
  (in_range 9 13 c || Nat.eqb (code c) 32 || Nat.eqb (code c) 160)%bool.

Fixpoint trim_start (s : string) : string :=
  match s with
  | String c r => if is_js_space c then trim_start r else s
  | EmptyString => s
  end.

Definition digit_value (c : ascii) : Z := Z.of_nat (code c) - 48.

(** The value of the longest prefix of decimal digits, continuing [acc]. *)
Fixpoint digits_prefix (acc : Z) (s : string) : Z :=
  match s with
  | String c r =>
      if is_digit c then digits_prefix (10 * acc + digit_value c) r else acc
  | EmptyString => acc
  end.

Definition unsigned_int (s : string) : option Z :=
  match s with
  | String c _ => if is_digit c then Some (digits_prefix 0 s) else None
  | EmptyString => None
  end.

(** [None] is [NaN]. *)
Definition parseInt (s : string) : option Z :=
  match trim_start s with
  | String "-" r => option_map Z.opp (unsigned_int r)
  | String "+" r => unsigned_int r
  | t => unsigned_int t
  end.

(** [ToString] of a value of type [string | undefined]. *)
Definition ToString (o : option string) : string :=
  match o with Some s => s | None => "undefined" end.


(** Truthiness of a value of type [string | undefined]: only a non-empty
    string is truthy. *)
Definition truthy (o : option string) : bool :=
  match o with
  | Some (String _ _) => true
  | _ => false
  end.

(** ** Parameter values *)

(** The values a parsed query string holds: strings, arrays and nested
    objects ([price[gte]=5] arrives as [{price: {gte: "5"}}]).  An object is
    the list of its properties in enumeration order. *)
#[local] Unset Elimination Schemes.
Inductive json : Type :=
  | JStr (s : string)
  | JArr (l : list json)
  | JObj (m : list (string * json)).
#[local] Set Elimination Schemes.

Definition truthy_json (v : json) : bool :=
  match v with
  | JStr EmptyString => false
  | _ => true
  end.

(** ** JSON.stringify *)

Definition hex_digit (n : nat) : ascii :=
  if Nat.ltb n 10 then ascii_of_nat (48 + n) else ascii_of_nat (87 + n).

(** QuoteJSONString, one code unit at a time. *)
Definition quote_char (c : ascii) : string :=
  let n := code c in
  if Nat.eqb n 8 then "\b"
  else if Nat.eqb n 9 then "\t"
  else if Nat.eqb n 10 then "\n"
  else if Nat.eqb n 12 then "\f"
  else if Nat.eqb n 13 then "\r"
  else if Nat.eqb n 34 then String backslash (str1 dquote)
  else if Nat.eqb n 92 then "\\"
  else if Nat.ltb n 32 then
    "\u00" ++ String (hex_digit (Nat.div n 16)) (str1 (hex_digit (Nat.modulo n 16)))
  else str1 c.

Fixpoint escape (s : string) : string :=
  match s with
  | EmptyString => EmptyString
  | String c r => quote_char c ++ escape r
  end.

Definition quote (body : string) : string :=
  String dquote (body ++ str1 dquote).

(** The serialization of a value in which every string and key [s] is
    written as the literal with body [lit s]. *)
Fixpoint stringify_with (lit : string -> string) (v : json) : string :=
  match v with
  | JStr s => quote (lit s)
  | JArr l => "[" ++ String.concat "," (map (stringify_with lit) l) ++ "]"
  | JObj m =>
      "{" ++ String.concat ","
               (map (fun kv => quote (lit (fst kv)) ++ ":" ++ stringify_with lit (snd kv)) m)
          ++ "}"
  end.

(** [JSON.stringify(v)]. *)
Definition stringify (v : json) : string := stringify_with escape v.

(** ** queryStr.replace(/\b(gte|gt|lte|lt|in|nin|eq|ne|regex|options)\b/g, ...) *)

(** The alternatives of the group, in the order the pattern tries them. *)
Definition operators : list string :=
  ["gte"; "gt"; "lte"; "lt"; "in"; "nin"; "eq"; "ne"; "regex"; "options"].

Fixpoint strip_prefix (p s : string) : option string :=
  match p with
  | EmptyString => Some s
  | String a p' =>
      match s with
      | String b s' => if Ascii.eqb a b then strip_prefix p' s' else None
      | EmptyString => None
      end
  end.

Definition head_is_word (s : string) : bool :=
  match s with
  | String c _ => is_word c
  | EmptyString => false
  end.

(** Whether the last code unit of [s] is a word character; [pw] if [s] is
    empty. *)
Fixpoint last_is_word (pw : bool) (s : string) : bool :=
  match s with
  | EmptyString => pw
  | String c r => last_is_word (is_word c) r
  end.

(** The assertion [\b] between a code unit of wordness [pw] and the rest [s]
    of the input; the start and the end of the input count as non-word. *)
Definition at_boundary (pw : bool) (s : string) : bool :=
  xorb pw (head_is_word s).

(** The group followed by [\b], tried at the head of [s]: the first
    alternative that is a prefix of [s] and ends at a boundary. *)
Fixpoint match_alternatives (alts : list string) (s : string) : option string :=
  match alts with
  | [] => None
  | alt :: more =>
      match strip_prefix alt s with
      | Some rest =>
          if at_boundary (last_is_word false alt) rest then Some alt
          else match_alternatives more s
      | None => match_alternatives more s
      end
  end.

(** A match of the whole pattern at the head of [s], [pw] being the wordness
    of the code unit before it. *)
Definition match_at (pw : bool) (s : string) : option string :=
  if at_boundary pw s then match_alternatives operators s else None.

(** The global replacement, scanning left to right.  [skip] counts the code
    units of the current match still to be copied; the replacer turns a
    match [m] into ["$" ++ m]. *)
Fixpoint replace_from (pw : bool) (skip : nat) (s : string) : string :=
  match s with
  | EmptyString => EmptyString
  | String c r =>
      match skip with
      | S k => String c (replace_from (is_word c) k r)
      | O =>
          match match_at pw s with
          | Some m =>
              String dollar
                (String c (replace_from (is_word c) (Nat.pred (String.length m)) r))
          | None => String c (replace_from (is_word c) 0 r)
          end
      end
  end.

Definition replace_operators (s : string) : string := replace_from false 0 s.

(** ** JSON.parse *)

(** JSON.parse on the JSON texts built from objects, arrays and strings.  A
    number or literal token is outside the value type and is refused; so is
    an escape [\uXXXX] above 00FF.  [None] is a thrown SyntaxError. *)

Definition hex_value (c : ascii) : option nat :=
  if is_digit c then Some (code c - 48)%nat
  else if in_range 97 102 c then Some (code c - 87)%nat
  else if in_range 65 70 c then Some (code c - 55)%nat
  else None.

Definition simple_escape (c : ascii) : option ascii :=
  if Ascii.eqb c dquote then Some dquote
  else if Ascii.eqb c backslash then Some backslash
  else if Ascii.eqb c "/" then Some "/"%char
  else if Ascii.eqb c "b" then Some (ascii_of_nat 8)
  else if Ascii.eqb c "f" then Some (ascii_of_nat 12)
  else if Ascii.eqb c "n" then Some (ascii_of_nat 10)
  else if Ascii.eqb c "r" then Some (ascii_of_nat 13)
  else if Ascii.eqb c "t" then Some (ascii_of_nat 9)
  else None.

Definition unicode_escape (h1 h2 h3 h4 : ascii) : option ascii :=
  match hex_value h1, hex_value h2, hex_value h3, hex_value h4 with
  | Some a, Some b, Some c, Some d =>
      if (Nat.eqb a 0 && Nat.eqb b 0)%bool then Some (ascii_of_nat (16 * c + d)) else None
  | _, _, _, _ => None
  end.

(** The string denoted by the body of a string literal: no raw quote, no
    raw control character, only the escapes of the JSON grammar. *)
Fixpoint unescape (body : string) : option string :=
  match body with
  | EmptyString => Some EmptyString
  | String c r =>
      if Ascii.eqb c backslash then
        match r with
        | String e r' =>
            match simple_escape e with
            | Some d => option_map (String d) (unescape r')
            | None =>
                if Ascii.eqb e "u" then
                  match r' with
                  | String h1 (String h2 (String h3 (String h4 r''))) =>
                      match unicode_escape h1 h2 h3 h4 with
                      | Some d => option_map (String d) (unescape r'')
                      | None => None
                      end
                  | _ => None
                  end
                else None
            end
        | EmptyString => None
        end
      else if Ascii.eqb c dquote then None
      else if Nat.ltb (code c) 32 then None
      else option_map (String c) (unescape r)
  end.

Inductive token : Type :=
  | TLBrace | TRBrace | TLBracket | TRBracket | TColon | TComma
  | TString (s : string).

(** Where the lexer is: between tokens, inside a string literal (with the
    string read so far), after a backslash, or inside [\u] with the number
    and the value of the hex digits read so far. *)
Inductive lex_mode : Type :=
  | LOut
  | LStr (acc : string)
  | LEsc (acc : string)
  | LHex (acc : string) (n : nat) (hi : bool) (v : nat).

Definition is_json_space (c : ascii) : bool :=
  (Nat.eqb (code c) 9 || Nat.eqb (code c) 10 || Nat.eqb (code c) 13
   || Nat.eqb (code c) 32)%bool.

Definition punctuation (c : ascii) : option token :=
  if Ascii.eqb c "{" then Some TLBrace
  else if Ascii.eqb c "}" then Some TRBrace
  else if Ascii.eqb c "[" then Some TLBracket
  else if Ascii.eqb c "]" then Some TRBracket
  else if Ascii.eqb c ":" then Some TColon
  else if Ascii.eqb c "," then Some TComma
  else None.

Definition snoc (s : string) (c : ascii) : string := s ++ str1 c.

Fixpoint lex (mode : lex_mode) (s : string) : option (list token) :=
  match s with
  | EmptyString =>
      match mode with
      | LOut => Some []
      | _ => None
      end
  | String c r =>
      match mode with
      | LOut =>
          if is_json_space c then lex LOut r
          else if Ascii.eqb c dquote then lex (LStr EmptyString) r
          else match punctuation c with
               | Some t => option_map (cons t) (lex LOut r)
               | None => None
               end
      | LStr acc =>
          if Ascii.eqb c backslash then lex (LEsc acc) r
          else if Ascii.eqb c dquote then option_map (cons (TString acc)) (lex LOut r)
          else if Nat.ltb (code c) 32 then None
          else lex (LStr (snoc acc c)) r
      | LEsc acc =>
          match simple_escape c with
          | Some d => lex (LStr (snoc acc d)) r
          | None => if Ascii.eqb c "u" then lex (LHex acc 0 false 0) r else None
          end
      | LHex acc n hi v =>
          match hex_value c with
          | Some h =>
              match n with
              | 0%nat | 1%nat =>
                  lex (LHex acc (S n) (hi || negb (Nat.eqb h 0)) 0) r
              | 2%nat => lex (LHex acc 3 hi h) r
              | _ =>
                  if hi then None
                  else lex (LStr (snoc acc (ascii_of_nat (16 * v + h)))) r
              end
          | None => None
          end
      end
  end.

(** [obj[k] = v]: an existing property keeps its place. *)
Fixpoint set_property {A : Type} (k : string) (v : A) (m : list (string * A))
  : list (string * A) :=
  match m with
  | [] => [(k, v)]
  | (k', v') :: m' =>
      if String.eqb k' k then (k, v) :: m' else (k', v') :: set_property k v m'
  end.

Fixpoint get_property {A : Type} (k : string) (m : list (string * A)) : option A :=
  match m with
  | [] => None
  | (k', v) :: m' => if String.eqb k' k then Some v else get_property k m'
  end.

(** The object holding the members of an object literal, defined in textual
    order: of two members with one key the later value wins. *)
Definition build_object (members : list (string * json)) : list (string * json) :=
  fold_left (fun m kv => set_property (fst kv) (snd kv) m) members [].

(** An enclosing array or object under construction: the elements read so
    far (latest first), and for an object the key awaiting its value. *)
Inductive frame : Type :=
  | FArr (acc : list json)
  | FObj (acc : list (string * json)) (key : string).

Inductive parser_state : Type :=
  | SValue (stk : list frame)
  | SArrOpen (stk : list frame)
  | SArrNext (acc : list json) (stk : list frame)
  | SObjOpen (stk : list frame)
  | SObjKey (acc : list (string * json)) (stk : list frame)
  | SColon (acc : list (string * json)) (key : string) (stk : list frame)
  | SObjNext (acc : list (string * json)) (stk : list frame)
  | SDone (v : json).

(** A value is complete: hand it to the innermost enclosing container. *)
Definition give_value (v : json) (stk : list frame) : parser_state :=
  match stk with
  | [] => SDone v
  | FArr acc :: stk' => SArrNext (v :: acc) stk'
  | FObj acc k :: stk' => SObjNext ((k, v) :: acc) stk'
  end.

Definition start_value (t : token) (stk : list frame) : option parser_state :=
  match t with
  | TString s => Some (give_value (JStr s) stk)
  | TLBracket => Some (SArrOpen stk)
  | TLBrace => Some (SObjOpen stk)
  | _ => None
  end.

Definition parser_step (st : parser_state) (t : token) : option parser_state :=
  match st with
  | SValue stk => start_value t stk
  | SArrOpen stk =>
      match t with
      | TRBracket => Some (give_value (JArr []) stk)
      | _ => start_value t (FArr [] :: stk)
      end
  | SArrNext acc stk =>
      match t with
      | TComma => Some (SValue (FArr acc :: stk))
      | TRBracket => Some (give_value (JArr (rev acc)) stk)
      | _ => None
      end
  | SObjOpen stk =>
      match t with
      | TRBrace => Some (give_value (JObj []) stk)
      | TString k => Some (SColon [] k stk)
      | _ => None
      end
  | SObjKey acc stk =>
      match t with
      | TString k => Some (SColon acc k stk)
      | _ => None
      end
  | SColon acc k stk =>
      match t with
      | TColon => Some (SValue (FObj acc k :: stk))
      | _ => None
      end
  | SObjNext acc stk =>
      match t with
      | TComma => Some (SObjKey acc stk)
      | TRBrace => Some (give_value (JObj (build_object (rev acc))) stk)
      | _ => None
      end
  | SDone _ => None
  end.

Fixpoint parser_run (st : parser_state) (ts : list token) : option json :=
  match ts with
  | [] => match st with SDone v => Some v | _ => None end
  | t :: ts' =>
      match parser_step st t with
      | Some st' => parser_run st' ts'
      | None => None
      end
  end.

(** [JSON.parse(text)]; [None] when it throws. *)
Definition JSON_parse (text : string) : option json :=
  match lex LOut text with
  | Some ts => parser_run (SValue []) ts
  | None => None
  end.

(** ** The query handle *)

(** A regular expression object, kept as the pair it was built from. *)
Record RegExp : Type := mkRegExp { re_source : string; re_flags : string }.

(** The syntax characters of a pattern: [^ $ \ . * + ? ( ) [ ] { } |]. *)
Definition is_syntax_char (c : ascii) : bool :=
  existsb (Ascii.eqb c)
    ["^"; "$"; "\"; "."; "*"; "+"; "?"; "("; ")"; "["; "]"; "{"; "}"; "|"]%char.

(** A pattern without syntax characters: it matches its own text. *)
Fixpoint literal_pattern (s : string) : bool :=
  match s with
  | EmptyString => true
  | String c r => (negb (is_syntax_char c) && literal_pattern r)%bool
  end.

(** A pattern that begins with one of the quantifiers [*], [+], [?]: there
    is nothing to repeat. *)
Definition starts_with_quantifier (s : string) : bool :=
  match s with
  | String c _ => existsb (Ascii.eqb c) ["*"; "+"; "?"]%char
  | EmptyString => false
  end.

(** [new RegExp(pattern, flags)] for valid flags; [None] when it throws a
    SyntaxError.  The pattern grammar is modelled at its two ends: a pattern
    without syntax characters is well-formed, a pattern that begins with a
    quantifier is not.  For every other pattern the verdict is the one of
    the engine's pattern compiler, [compiles]. *)
Definition new_RegExp (compiles : string -> bool) (pattern flags : string)
  : option RegExp :=
  if literal_pattern pattern then Some (mkRegExp pattern flags)
  else if starts_with_quantifier pattern then None
  else if compiles pattern then Some (mkRegExp pattern flags)
  else None.

(** [new Date(v)], kept as the value it was built from. *)
Record Date : Type := new_Date { date_of : json }.

(** The value of one entry of the filter object: what JSON.parse read, or
    the replacement [{$gte?: Date, $lte?: Date}] of the [date] entry. *)
Inductive field_condition : Type :=
  | Plain (v : json)
  | DateRange (gte lte : option Date).

(** An argument of [find]: the filter object, a parse result that is no
    object (handed over as it is), or the disjunction
    [{$or: [{field: regex}, ...]}] of search. *)
Inductive conditions : Type :=
  | Fields (fs : list (string * field_condition))
  | Value (v : json)
  | Or (alts : list (string * RegExp)).

Inductive directive : Type :=
  | Find (c : conditions)
  | Sort (spec : string)
  | Select (spec : string)
  | Skip (n : Z)
  | Limit (n : Z)
  | Populate (path : string).

(** The handle: the directives applied so far, oldest first. *)
Definition Query : Type := list directive.

(** ** The parameter mapping (types.ts, [QueryString]) *)

(** The six control parameters are strings when they are present; the
    properties under any other key are in [qs_others], in enumeration
    order. *)
Record QueryString : Type := mkQueryString {
  qs_page : option string;
  qs_sort : option string;
  qs_limit : option string;
  qs_fields : option string;
  qs_search : option string;
  qs_populate : option string;
  qs_others : list (string * json)
}.

Definition own (k : string) (o : option string) : list (string * json) :=
  match o with
  | Some s => [(k, JStr s)]
  | None => []
  end.

(** The own properties of the mapping, as the spread [{ ...queryString }]
    copies them. *)
Definition properties (qs : QueryString) : list (string * json) :=
  (own "page" (qs_page qs) ++ own "sort" (qs_sort qs) ++ own "limit" (qs_limit qs)
   ++ own "fields" (qs_fields qs) ++ own "search" (qs_search qs)
   ++ own "populate" (qs_populate qs) ++ qs_others qs)%list.

(** [delete obj[k]]. *)
Definition delete {A : Type} (k : string) (m : list (string * A)) : list (string * A) :=
  List.filter (fun kv => negb (String.eqb (fst kv) k)) m.

(** [DatabaseError] stands for whatever the database rejects a query
    with. *)
Inductive exn : Type :=
  | SyntaxError
  | TypeError
  | DatabaseError.

(** How a call completes; for the asynchronous [filter], [Thrown] is the
    rejection of its promise. *)
Inductive completion : Type :=
  | Returned
  | Thrown (e : exn).

Inductive result (A : Type) : Type :=
  | Ok (a : A)
  | Raise (e : exn).

Arguments Ok {A} a.
Arguments Raise {A} e.

(** [new Date(v)] first converts an object or array [v] to a primitive.
    For an object read by JSON.parse that is ["[object Object]"], unless the
    object has a property [toString] of its own: its value is no function,
    and the conversion throws a TypeError.  An array converts its elements,
    joined by commas. *)
Fixpoint to_primitive_throws (v : json) : bool :=
  match v with
  | JStr _ => false
  | JArr l => existsb to_primitive_throws l
  | JObj m => existsb (fun kv => String.eqb (fst kv) "toString") m
  end.

(** [filters.date.$gte] and [filters.date.$lte]: a property of an object,
    [undefined] on a string or an array; a truthy one becomes a [Date]. *)
Definition date_bound (d : json) (k : string) : result (option Date) :=
  match d with
  | JObj m =>
      match get_property k m with
      | Some x =>
          if truthy_json x then
            if to_primitive_throws x then Raise TypeError else Ok (Some (new_Date x))
          else Ok None
      | None => Ok None
      end
  | _ => Ok None
  end.

Definition plain_fields (m : list (string * json)) : list (string * field_condition) :=
  map (fun kv => (fst kv, Plain (snd kv))) m.

(** The special case of a truthy [date] entry. *)
Definition handle_date (filters : json) : result conditions :=
  match filters with
  | JObj m =>
      match get_property "date" m with
      | Some d =>
          if truthy_json d then
            match date_bound d "$gte" with
            | Ok gte =>
                match date_bound d "$lte" with
                | Ok lte =>
                    Ok (Fields (set_property "date" (DateRange gte lte) (plain_fields m)))
                | Raise e => Raise e
                end
            | Raise e => Raise e
            end
          else Ok (Fields (plain_fields m))
      | None => Ok (Fields (plain_fields m))
      end
  | v => Ok (Value v)
  end.

Module ApiFeatures.

Record t : Type := mk {
  query : Query;
  queryString : QueryString;
  total : option Z
}.

Definition constructor (query : Query) (queryString : QueryString) : t :=
  {| query := query; queryString := queryString; total := None |}.

(** What a call leaves behind: the object, how the call completed, and the
    count queries it sent to the database. *)
Record outcome : Type := mkOutcome {
  this : t;
  completed : completion;
  count_queries : list conditions
}.

Definition excludedFields : list string :=
  ["page"; "sort"; "limit"; "fields"; "search"; "populate"].

Definition queryObj (qs : QueryString) : list (string * json) :=
  fold_left (fun obj el => delete el obj) excludedFields (properties qs).

(** [JSON.parse(queryStr)] of filter, after the replacement. *)
Definition parsed_filters (qs : QueryString) : option json :=
  let queryStr := stringify (JObj (queryObj qs)) in
  let queryStr := replace_operators queryStr in
  JSON_parse queryStr.

Section Database.

(** The answer of the database to [countDocuments]; [None] when the
    database rejects the query. *)
Variable countDocuments : conditions -> option Z.

Definition filter (api : t) : outcome :=
  match parsed_filters (queryString api) with
  | None => {| this := api; completed := Thrown SyntaxError; count_queries := [] |}
  | Some parsed =>
      match handle_date parsed with
      | Raise e => {| this := api; completed := Thrown e; count_queries := [] |}
      | Ok filters =>
          let found :=
            {| query := (query api ++ [Find filters])%list;
               queryString := queryString api;
               total := total api |} in
          if truthy (qs_page (queryString api)) then
            match countDocuments filters with
            | Some n =>
                {| this := {| query := query found;
                              queryString := queryString api;
                              total := Some n |};
                   completed := Returned;
                   count_queries := [filters] |}
            | None =>
                {| this := found;
                   completed := Thrown DatabaseError;
                   count_queries := [filters] |}
            end
          else {| this := found; completed := Returned; count_queries := [] |}
      end
  end.

End Database.

Definition default_searchFields : list string := ["name"; "email"; "title"].

Section Engine.

(** The pattern compiler of the engine, see [new_RegExp]. *)
Variable compiles : string -> bool.

(** [search(searchFields = ["name", "email", "title"])]; [None] is a call
    without the argument. *)
Definition search (searchFields : option (list string)) (api : t) : outcome :=
  let searchFields :=
    match searchFields with Some l => l | None => default_searchFields end in
  if truthy (qs_search (queryString api)) then
    match new_RegExp compiles (ToString (qs_search (queryString api))) "i" with
    | Some searchRegex =>
        let searchQuery := Or (map (fun field => (field, searchRegex)) searchFields) in
        {| this := {| query := (query api ++ [Find searchQuery])%list;
                      queryString := queryString api;
                      total := total api |};
           completed := Returned;
           count_queries := [] |}
    | None => {| this := api; completed := Thrown SyntaxError; count_queries := [] |}
    end
  else {| this := api; completed := Returned; count_queries := [] |}.

End Engine.

Definition join_spaces (l : list string) : string := String.concat " " l.

Definition sort (api : t) : t :=
  let spec :=
    if truthy (qs_sort (queryString api))
    then join_spaces (split "," (ToString (qs_sort (queryString api))))
    else "-createdAt" in
  {| query := (query api ++ [Sort spec])%list;
     queryString := queryString api;
     total := total api |}.

Definition limitFields (api : t) : t :=
  let spec :=
    if truthy (qs_fields (queryString api))
    then join_spaces (split "," (ToString (qs_fields (queryString api))))
    else "-__v" in
  {| query := (query api ++ [Select spec])%list;
     queryString := queryString api;
     total := total api |}.


(** [populate(populateOptions = [])]. *)
Definition populate (populateOptions : option (list string)) (api : t) : t :=
  let populateOptions :=
    match populateOptions with Some l => l | None => [] end in
  let populateFields :=
    if truthy (qs_populate (queryString api))
    then split "," (ToString (qs_populate (queryString api)))
    else populateOptions in
  {| query := fold_left (fun q field => (q ++ [Populate field])%list) populateFields (query api);
     queryString := queryString api;
     total := total api |}.

End ApiFeatures.

(** ** Mappings that differ in one control parameter *)

Definition with_page (p : option string) (qs : QueryString) : QueryString :=
  {| qs_page := p; qs_sort := qs_sort qs; qs_limit := qs_limit qs;
     qs_fields := qs_fields qs; qs_search := qs_search qs;
     qs_populate := qs_populate qs; qs_others := qs_others qs |}.

Definition with_limit (l : option string) (qs : QueryString) : QueryString :=
  {| qs_page := qs_page qs; qs_sort := qs_sort qs; qs_limit := l;
     qs_fields := qs_fields qs; qs_search := qs_search qs;
     qs_populate := qs_populate qs; qs_others := qs_others qs |}.

Definition with_search (s : option string) (qs : QueryString) : QueryString :=
  {| qs_page := qs_page qs; qs_sort := qs_sort qs; qs_limit := qs_limit qs;
     qs_fields := qs_fields qs; qs_search := s;
     qs_populate := qs_populate qs; qs_others := qs_others qs |}.

Definition with_populate (p : option string) (qs : QueryString) : QueryString :=
  {| qs_page := qs_page qs; qs_sort := qs_sort qs; qs_limit := qs_limit qs;
     qs_fields := qs_fields qs; qs_search := qs_search qs;
     qs_populate := p; qs_others := qs_others qs |}.

(** A mapping that holds only filter parameters. *)
Definition only (others : list (string * json)) : QueryString :=
  {| qs_page := None; qs_sort := None; qs_limit := None; qs_fields := None;
     qs_search := None; qs_populate := None; qs_others := others |}.

(** ** The readings of the specification that the code is compared with *)



(** "the comma-split of the populate value when that key is present, the
    default list otherwise". *)
Definition populate_fields_if_present (p : option string) (defaults : list string)
  : list string :=
  match p with
  | Some s => split "," s
  | None => defaults
  end.

(** The same, an empty value counting as absent. *)
Definition populate_fields_if_nonempty (p : option string) (defaults : list string)
  : list string :=
  match p with
  | Some (String c r) => split "," (String c r)
  | _ => defaults
  end.

(** ** Vocabulary of the statements *)

Definition option_list (o : option (list string)) : list string :=
  match o with Some l => l | None => [] end.

(** Every code unit of the string is a word character. *)
Fixpoint all_word (s : string) : bool :=
  match s with
  | EmptyString => true
  | String c r => (is_word c && all_word r)%bool
  end.

(** A word: a non-empty string of word characters. *)
Definition is_a_word (s : string) : bool :=
  match s with
  | EmptyString => false
  | String _ _ => all_word s
  end.

Definition is_operator (s : string) : bool :=
  existsb (String.eqb s) operators.

(** What the replacer makes of a word that stands alone. *)
Definition rewritten_word (w : string) : string :=
  if is_operator w then String dollar w else w.

(** [weave marks s]: [s] with a dollar sign put before each code unit that
    is marked. *)
Fixpoint weave (marks : list bool) (s : string) {struct s} : string :=
  match s with
  | EmptyString => EmptyString
  | String c r =>
      match marks with
      | true :: m => String dollar (String c (weave m r))
      | false :: m => String c (weave m r)
      | [] => s
      end
  end.

(** The string that JSON.parse reads where JSON.stringify wrote [s], the
    replacement having worked on the text in between; [None] when the
    rewritten literal is ill-formed. *)
Definition reread (s : string) : option string :=
  unescape (replace_operators (escape s)).

(** A string that JSON.stringify writes as it is: no quote, no backslash,
    no control character. *)
Definition plain_char (c : ascii) : bool :=
  (negb (Nat.ltb (code c) 32) && negb (Ascii.eqb c dquote)
   && negb (Ascii.eqb c backslash))%bool.

Fixpoint plain (s : string) : bool :=
  match s with
  | EmptyString => true
  | String c r => (plain_char c && plain r)%bool
  end.

Fixpoint has_dollar (s : string) : bool :=
  match s with
  | EmptyString => false
  | String c r => (Ascii.eqb c dollar || has_dollar r)%bool
  end.

Fixpoint sequence {A : Type} (l : list (option A)) : option (list A) :=
  match l with
  | [] => Some []
  | Some x :: r => option_map (cons x) (sequence r)
  | None :: _ => None
  end.

Definition reread_member (value : json -> option json) (kv : string * json)
  : option (string * json) :=
  match reread (fst kv), value (snd kv) with
  | Some k, Some v => Some (k, v)
  | _, _ => None
  end.

(** A value with every key and every string in it read back. *)
Fixpoint reread_value (v : json) : option json :=
  match v with
  | JStr s => option_map JStr (reread s)
  | JArr l => option_map JArr (sequence (map reread_value l))
  | JObj m => option_map JObj (sequence (map (reread_member reread_value) m))
  end.

(** A value with every object in it built from its members in order. *)
Fixpoint normalize (v : json) : json :=
  match v with
  | JStr s => JStr s
  | JArr l => JArr (map normalize l)
  | JObj m => JObj (build_object (map (fun kv => (fst kv, normalize (snd kv))) m))
  end.

(** The tokens of a JSON text for a value. *)
Definition separated (ls : list (list token)) : list token :=
  match ls with
  | [] => []
  | x :: r => x ++ flat_map (cons TComma) r
  end.

Fixpoint tokens_of (v : json) : list token :=
  match v with
  | JStr s => [TString s]
  | JArr l => TLBracket :: separated (map tokens_of l) ++ [TRBracket]
  | JObj m =>
      TLBrace
        :: separated (map (fun kv => TString (fst kv) :: TColon :: tokens_of (snd kv)) m)
        ++ [TRBrace]
  end.

(** The part of a comma-separated text after its first item. *)
Definition comma_tail (items : list string) : string :=
  fold_right (fun y acc => "," ++ y ++ acc) EmptyString items.

(** The serialization as the replacement leaves it. *)
Definition rewritten_text (v : json) : string :=
  stringify_with (fun s => replace_operators (escape s)) v.

(** "Operator suffixes (bracketed tokens matching the closed operator
    vocabulary) are rewritten into the native comparator tokens": a
    parameter [field[op]=x] arrives as the key [op] of the object under
    [field], and only such keys are renamed. *)
Definition rename_suffix (k : string) : string :=
  if is_operator k then String dollar k else k.

Definition rename_suffixes (v : json) : json :=
  match v with
  | JObj m => JObj (map (fun kv => (rename_suffix (fst kv), snd kv)) m)
  | _ => v
  end.

Definition bracketed_rewrite (m : list (string * json)) : json :=
  JObj (map (fun kv => (fst kv, rename_suffixes (snd kv))) m).

Definition keys {A : Type} (m : list (string * A)) : list string := map fst m.

(** ** Vocabulary of the further properties *)

Definition is_comma (c : ascii) : bool := Ascii.eqb c ",".

(** [s] with every comma replaced by a space. *)
Fixpoint commas_to_spaces (s : string) : string :=
  match s with
  | EmptyString => EmptyString
  | String c r => String (if is_comma c then " "%char else c) (commas_to_spaces r)
  end.

Fixpoint count_commas (s : string) : nat :=
  match s with
  | EmptyString => 0%nat
  | String c r => ((if is_comma c then 1 else 0) + count_commas r)%nat
  end.

Fixpoint has_comma (s : string) : bool :=
  match s with
  | EmptyString => false
  | String c r => (is_comma c || has_comma r)%bool
  end.




Definition is_reserved (k : string) : bool :=
  existsb (String.eqb k) ApiFeatures.excludedFields.

(** A key or string that the replacement leaves as JSON.stringify wrote
    it. *)
Definition untouched (s : string) : bool :=
  String.eqb (replace_operators (escape s)) (escape s).

Fixpoint untouched_value (v : json) : bool :=
  match v with
  | JStr s => untouched s
  | JArr l => forallb untouched_value l
  | JObj m => forallb (fun kv => (untouched (fst kv) && untouched_value (snd kv))%bool) m
  end.

Fixpoint distinct (l : list string) : bool :=
  match l with
  | [] => true
  | k :: r => (negb (existsb (String.eqb k) r) && distinct r)%bool
  end.

(** No object of the value has two properties with one key. *)
Fixpoint distinct_keys (v : json) : bool :=
  match v with
  | JStr _ => true
  | JArr l => forallb distinct_keys l
  | JObj m => (distinct (keys m) && forallb (fun kv => distinct_keys (snd kv)) m)%bool
  end.

(** A line feed or a carriage return. *)
Definition is_line_break (c : ascii) : bool :=
  (Nat.eqb (code c) 10 || Nat.eqb (code c) 13)%bool.

Fixpoint no_line_break (s : string) : bool :=
  match s with
  | EmptyString => true
  | String c r => (negb (is_line_break c) && no_line_break r)%bool
  end.

Fixpoint no_line_break_value (v : json) : bool :=
  match v with
  | JStr s => no_line_break s
  | JArr l => forallb no_line_break_value l
  | JObj m =>
      forallb (fun kv => (no_line_break (fst kv) && no_line_break_value (snd kv))%bool) m
  end.

(** A code unit that one of the operators begins with. *)
Definition first_letter (c : ascii) : bool :=
  existsb (fun alt => match alt with
                      | String a _ => Ascii.eqb a c
                      | EmptyString => false
                      end) operators.

(** Marks that stand only where a match can begin: before a first letter
    of an operator that follows a non-word code unit or the start. *)
Fixpoint sound_marks (pw : bool) (marks : list bool) (s : string) {struct s} : bool :=
  match s with
  | EmptyString => true
  | String c r =>
      match marks with
      | b :: m =>
          (implb b (negb pw && first_letter c) && sound_marks (is_word c) m r)%bool
      | [] => true
      end
  end.

(** * Properties of [getPagination] *)

Section Pagination.

(** The ceiling of a quotient with a positive divisor is the least integer
    whose multiple reaches the dividend. *)
Lemma ceil_div_pos (a b : Z) :
  0 < b ->
  exists c, ceil_div a b = Int c /\ (c - 1) * b < a <= c * b.
Proof.
  intros Hb. unfold ceil_div.
  destruct (Z.eqb_spec b 0) as [E | _]; [lia |].
  exists (- (- a / b)). split; [reflexivity |].
  pose proof (Z.div_mod (- a) b ltac:(lia)) as Hdm.
  pose proof (Z.mod_pos_bound (- a) b Hb) as Hm.
  nia.
Qed.





End Pagination.


(** * Properties of the control operations *)

Section Control.

Import ApiFeatures.

Lemma parseInt_undefined : parseInt "undefined" = None.
Proof. reflexivity. Qed.





Lemma fold_populate (fields : list string) (q : Query) :
  fold_left (fun q field => (q ++ [Populate field])%list) fields q
  = (q ++ map Populate fields)%list.
Proof.
  revert q. induction fields as [| f fields IH]; intros q; cbn.
  - now rewrite app_nil_r.
  - rewrite IH, <- app_assoc. reflexivity.
Qed.

(** C5 (as amended): populate takes the comma-split of the populate value
    when that value is present and not empty (the caller's list is then not
    used at all), and the caller's list (empty by default) when it is absent
    or empty; it appends exactly one expansion directive per field of that
    list, in order.  The value "category,reviews" gives exactly the two
    directives for category and reviews, whatever the caller's list. *)
Theorem populate_directives (populateOptions : option (list string)) (api : ApiFeatures.t) :
  populate populateOptions api =
    {| query :=
         (query api
          ++ map Populate
               (populate_fields_if_nonempty (qs_populate (queryString api))
                  (option_list populateOptions)))%list;
       queryString := queryString api;
       total := total api |}
  /\ query (populate populateOptions
              (mk (query api)
                  (with_populate (Some "category,reviews") (queryString api))
                  (total api)))
     = (query api ++ [Populate "category"; Populate "reviews"])%list.
Proof.
  split.
  - unfold populate. rewrite fold_populate. f_equal. f_equal. f_equal.
    destruct (qs_populate (queryString api)) as [[| c r] |]; reflexivity.
  - unfold populate. rewrite fold_populate. reflexivity.
Qed.

(** C5 (as stated) fails for a populate value that is present but empty:
    the claim's list is the comma-split of the value, one empty field name,
    but populate falls back to the caller's list. *)
Lemma populate_empty_value_counterexample :
  let qs := with_populate (Some EmptyString) (only []) in
  query (populate (Some ["author"]) (constructor [] qs)) = [Populate "author"]
  /\ map Populate (populate_fields_if_present (qs_populate qs) ["author"])
     = [Populate EmptyString]
  /\ query (populate (Some ["author"]) (constructor [] qs))
     <> map Populate (populate_fields_if_present (qs_populate qs) ["author"]).
Proof.
  repeat split. discriminate.
Qed.

(** C6 (as amended): search leaves the object as it is when the search
    value is absent or the empty string.  When it is a non-empty string [s]
    that is a well-formed pattern, as every string without syntax
    characters is, search appends one [find] whose argument is the
    disjunction, over the given fields, of a match of the field against the
    regular expression built from [s] with the flag "i" (ignore case);
    called without a field list it uses name, email and title.  When [s] is
    not a well-formed pattern search throws and the object is as it was. *)
Theorem search_spec (compiles : string -> bool) (searchFields : option (list string))
    (q : Query) (qs : QueryString) (tot : option Z) (c : ascii) (r : string) :
  let fields :=
    match searchFields with Some l => l | None => ["name"; "email"; "title"] end in
  let unchanged (s : option string) (how : completion) :=
    {| this := mk q (with_search s qs) tot; completed := how; count_queries := [] |} in
  let appended (s : string) :=
    {| this := mk (q ++ [Find (Or (map (fun field => (field, mkRegExp s "i")) fields))])%list
                  (with_search (Some s) qs) tot;
       completed := Returned;
       count_queries := [] |} in
  search compiles searchFields (mk q (with_search None qs) tot) = unchanged None Returned
  /\ search compiles searchFields (mk q (with_search (Some EmptyString) qs) tot)
     = unchanged (Some EmptyString) Returned
  /\ search compiles searchFields (mk q (with_search (Some (String c r)) qs) tot)
     = match new_RegExp compiles (String c r) "i" with
       | Some _ => appended (String c r)
       | None => unchanged (Some (String c r)) (Thrown SyntaxError)
       end
  /\ (if literal_pattern (String c r)
      then search compiles searchFields (mk q (with_search (Some (String c r)) qs) tot)
           = appended (String c r)
      else True).
Proof.
  cbn zeta. split; [reflexivity |]. split; [reflexivity |].
  assert (E : forall re, new_RegExp compiles (String c r) "i" = Some re ->
                         re = mkRegExp (String c r) "i").
  { unfold new_RegExp. intros re.
    destruct (literal_pattern _); [now intros [= <-] |].
    destruct (starts_with_quantifier _); [discriminate |].
    destruct (compiles _); [now intros [= <-] | discriminate]. }
  split.
  - unfold search. cbn [queryString with_search qs_search truthy ToString].
    destruct (new_RegExp compiles (String c r) "i") as [re |] eqn:Ere; [| reflexivity].
    now rewrite (E re eq_refl).
  - destruct (literal_pattern (String c r)) eqn:L; [| trivial].
    unfold search. cbn [queryString with_search qs_search truthy ToString].
    unfold new_RegExp. now rewrite L.
Qed.

(** C6 (as stated) fails for the search value "*": it is present and not
    empty, but [new RegExp("*", "i")] throws, whatever the engine, and
    nothing is appended to the handle. *)
Lemma search_quantifier_counterexample :
  let api := constructor [] (with_search (Some "*") (only [])) in
  let o := search (fun _ => true) None api in
  truthy (qs_search (queryString api)) = true
  /\ completed o = Thrown SyntaxError
  /\ query (this o) = []
  /\ query (this o)
     <> [Find (Or (map (fun field => (field, mkRegExp "*" "i"))
                     ["name"; "email"; "title"]))].
Proof.
  repeat split. discriminate.
Qed.

End Control.

(** * The replacement on texts *)

Section Strings.

Lemma append_assoc (a b c : string) : (a ++ b) ++ c = a ++ (b ++ c).
Proof. induction a as [| x a IH]; cbn; [reflexivity | now rewrite IH]. Qed.

Lemma append_nil_r (a : string) : a ++ EmptyString = a.
Proof. induction a as [| x a IH]; cbn; [reflexivity | now rewrite IH]. Qed.

Lemma length_append (a b : string) :
  String.length (a ++ b) = (String.length a + String.length b)%nat.
Proof. induction a as [| x a IH]; cbn; [reflexivity | now rewrite IH]. Qed.

End Strings.

Section Replacement.

Lemma operators_all_word : forallb all_word operators = true.
Proof. reflexivity. Qed.

Lemma strip_prefix_eq (p s rest : string) :
  strip_prefix p s = Some rest -> s = p ++ rest.
Proof.
  revert s. induction p as [| a p IH]; intros s H; cbn in *.
  - now inversion H.
  - destruct s as [| b s]; [discriminate |].
    destruct (Ascii.eqb_spec a b) as [-> |]; [| discriminate].
    now rewrite (IH _ H).
Qed.

Lemma strip_prefix_append (p rest : string) : strip_prefix p (p ++ rest) = Some rest.
Proof.
  induction p as [| a p IH]; cbn; [reflexivity |].
  now rewrite Ascii.eqb_refl.
Qed.

(** A text that goes on with a non-word code unit matches an all-word
    alternative exactly as the text cut before that code unit does. *)
Lemma strip_prefix_cut (p a : string) (c : ascii) (b : string) :
  all_word p = true -> is_word c = false ->
  strip_prefix p (a ++ String c b)
  = option_map (fun rest => rest ++ String c b) (strip_prefix p a).
Proof.
  intros Hp Hc. revert a. induction p as [| x p IH]; intros a; cbn.
  - reflexivity.
  - cbn in Hp. apply andb_prop in Hp as [Hx Hp].
    destruct a as [| y a]; cbn.
    + destruct (Ascii.eqb_spec x c) as [-> |]; [congruence | reflexivity].
    + destruct (Ascii.eqb x y); [apply IH, Hp | reflexivity].
Qed.

Lemma head_is_word_cut (rest : string) (c : ascii) (b : string) :
  is_word c = false ->
  head_is_word (rest ++ String c b) = head_is_word rest.
Proof.
  intros Hc. destruct rest; cbn; [exact Hc | reflexivity].
Qed.

Lemma match_alternatives_cut (alts : list string) (a : string) (c : ascii) (b : string) :
  forallb all_word alts = true -> is_word c = false ->
  match_alternatives alts (a ++ String c b) = match_alternatives alts a.
Proof.
  intros Halts Hc. induction alts as [| alt alts IH]; cbn; [reflexivity |].
  cbn in Halts. apply andb_prop in Halts as [Halt Halts].
  rewrite (strip_prefix_cut alt a c b Halt Hc).
  destruct (strip_prefix alt a) as [rest |]; cbn.
  - unfold at_boundary. rewrite (head_is_word_cut rest c b Hc).
    destruct (xorb _ _); [reflexivity | apply IH, Halts].
  - apply IH, Halts.
Qed.

Lemma match_alternatives_prefix (alts : list string) (s m : string) :
  match_alternatives alts s = Some m ->
  exists rest, s = m ++ rest.
Proof.
  induction alts as [| alt alts IH]; cbn; [discriminate |].
  destruct (strip_prefix alt s) as [rest |] eqn:E.
  - destruct (at_boundary _ rest).
    + intros [= <-]. exists rest. now apply strip_prefix_eq.
    + exact IH.
  - exact IH.
Qed.

Lemma match_at_cut (pw : bool) (a : string) (c : ascii) (b : string) :
  is_word c = false ->
  match_at pw (a ++ String c b)
  = match a with EmptyString => None | _ => match_at pw a end.
Proof.
  intros Hc. unfold match_at, at_boundary.
  destruct a as [| x a].
  - cbn [append head_is_word]. rewrite Hc.
    destruct pw; cbn [xorb]; [| reflexivity].
    change (String c b) with (EmptyString ++ String c b).
    rewrite (match_alternatives_cut operators EmptyString c b operators_all_word Hc).
    reflexivity.
  - change (head_is_word (String x a ++ String c b)) with (head_is_word (String x a)).
    destruct (xorb pw (head_is_word (String x a))); [| reflexivity].
    apply match_alternatives_cut; [exact operators_all_word | exact Hc].
Qed.

(** The replacement works on the two sides of a non-word code unit
    independently of each other. *)
Lemma replace_from_cut (a : string) (c : ascii) (b : string) :
  is_word c = false ->
  forall (pw : bool) (skip : nat),
    (skip <= String.length a)%nat ->
    replace_from pw skip (a ++ String c b)
    = replace_from pw skip a ++ String c (replace_operators b).
Proof.
  intros Hc. induction a as [| x a IH]; intros pw skip Hs.
  - cbn in Hs. assert (skip = 0%nat) as -> by lia.
    cbn [append replace_from].
    change (String c b) with (EmptyString ++ String c b) at 1.
    rewrite (match_at_cut pw EmptyString c b Hc), Hc. reflexivity.
  - cbn [append replace_from]. destruct skip as [| k].
    + change (String x (a ++ String c b)) with (String x a ++ String c b).
      rewrite (match_at_cut pw (String x a) c b Hc).
      destruct (match_at pw (String x a)) as [m |] eqn:E.
      * cbn [append]. do 2 f_equal. apply IH.
        unfold match_at in E. destruct (at_boundary pw _); [| discriminate].
        apply match_alternatives_prefix in E as [rest E].
        apply (f_equal String.length) in E. rewrite length_append in E.
        cbn in E. lia.
      * cbn [append]. f_equal. apply IH. lia.
    + cbn [append]. f_equal. apply IH. cbn in Hs. lia.
Qed.

Lemma replace_cut (a : string) (c : ascii) (b : string) :
  is_word c = false ->
  replace_operators (a ++ String c b)
  = replace_operators a ++ String c (replace_operators b).
Proof.
  intros Hc. apply replace_from_cut; [exact Hc | lia].
Qed.

End Replacement.

Section Words.

Lemma replace_from_skip (s : string) :
  forall (pw : bool) (skip : nat),
    (String.length s <= skip)%nat -> replace_from pw skip s = s.
Proof.
  induction s as [| c s IH]; intros pw skip H; [reflexivity |].
  cbn in H. destruct skip as [| k]; [lia |].
  cbn. f_equal. apply IH. lia.
Qed.

Lemma match_at_inside_word (s : string) :
  head_is_word s = true -> match_at true s = None.
Proof.
  intros H. unfold match_at, at_boundary. now rewrite H.
Qed.

Lemma replace_from_inside_word (s : string) :
  all_word s = true -> replace_from true 0 s = s.
Proof.
  induction s as [| c s IH]; intros H; [reflexivity |].
  cbn in H. apply andb_prop in H as [Hc Hs].
  cbn [replace_from]. rewrite match_at_inside_word by exact Hc.
  rewrite Hc. f_equal. apply IH, Hs.
Qed.

Lemma last_is_word_all_word (s : string) (c : ascii) :
  all_word (String c s) = true -> forall pw, last_is_word pw (String c s) = true.
Proof.
  revert c. induction s as [| d s IH]; intros c H pw.
  - cbn in *. now rewrite andb_true_r in H.
  - cbn [all_word] in H. apply andb_prop in H as [_ H].
    exact (IH d H (is_word c)).
Qed.

Lemma all_word_append (a b : string) :
  all_word (a ++ b) = (all_word a && all_word b)%bool.
Proof.
  induction a as [| c a IH]; cbn; [reflexivity |].
  now rewrite IH, andb_assoc.
Qed.

(** On a word the group matches exactly when the word is one of the
    alternatives, and it matches the whole word. *)
Lemma match_alternatives_word (alts : list string) (w : string) :
  forallb is_a_word alts = true -> all_word w = true ->
  match_alternatives alts w
  = if existsb (String.eqb w) alts then Some w else None.
Proof.
  intros Halts Hw. induction alts as [| alt alts IH]; cbn; [reflexivity |].
  cbn in Halts. apply andb_prop in Halts as [Halt Halts].
  specialize (IH Halts).
  destruct alt as [| a alt]; [discriminate |]. cbn [is_a_word] in Halt.
  destruct (strip_prefix (String a alt) w) as [rest |] eqn:E.
  - apply strip_prefix_eq in E. subst w.
    rewrite all_word_append in Hw. apply andb_prop in Hw as [_ Hrest].
    rewrite (last_is_word_all_word alt a Halt).
    destruct rest as [| r rest].
    + rewrite append_nil_r, String.eqb_refl. reflexivity.
    + cbn in Hrest. apply andb_prop in Hrest as [Hr _].
      unfold at_boundary. cbn [head_is_word]. rewrite Hr. cbn [xorb].
      rewrite IH.
      destruct (String.eqb_spec (String a alt ++ String r rest) (String a alt)) as [E |];
        [| reflexivity].
      apply (f_equal String.length) in E. rewrite length_append in E.
      cbn in E. lia.
  - rewrite IH.
    destruct (String.eqb_spec w (String a alt)) as [-> |]; [| reflexivity].
    rewrite <- (append_nil_r (String a alt)) in E at 2.
    rewrite strip_prefix_append in E. discriminate.
Qed.

Lemma operators_are_words : forallb is_a_word operators = true.
Proof. reflexivity. Qed.

(** A word that stands alone gets the dollar sign exactly when it is an
    operator. *)
Lemma replace_word (w : string) :
  is_a_word w = true -> replace_operators w = rewritten_word w.
Proof.
  destruct w as [| c w]; [discriminate |]. cbn [is_a_word]. intros Hw.
  unfold replace_operators, rewritten_word, is_operator. cbn [replace_from].
  unfold match_at, at_boundary. cbn [head_is_word].
  pose proof Hw as Hw'. cbn in Hw'. apply andb_prop in Hw' as [Hc Hw'].
  rewrite Hc. cbn [xorb].
  rewrite (match_alternatives_word operators (String c w) operators_are_words Hw).
  destruct (existsb _ operators).
  - cbn [String.length Nat.pred]. rewrite replace_from_skip by lia. reflexivity.
  - now rewrite replace_from_inside_word.
Qed.

Lemma ends_nonword_inv (pre : string) :
  last_is_word false pre = false ->
  pre = EmptyString \/
  exists pre' c, pre = pre' ++ str1 c /\ is_word c = false.
Proof.
  assert (G : forall pw, last_is_word pw pre = false ->
            (pre = EmptyString /\ pw = false) \/
            exists pre' c, pre = pre' ++ str1 c /\ is_word c = false).
  { induction pre as [| x pre IH]; intros pw H; cbn in H.
    - left. now split.
    - right. destruct (IH _ H) as [[-> Hx] | (pre' & c & -> & Hc)].
      + exists EmptyString, x. now split.
      + exists (String x pre'), c. now split. }
  intros H. destruct (G false H) as [[-> _] | G']; [now left | now right].
Qed.

(** The replacement at a word that is delimited on both sides. *)
Lemma replace_delimited_word (pre w post : string) :
  last_is_word false pre = false -> is_a_word w = true ->
  head_is_word post = false ->
  replace_operators (pre ++ w ++ post)
  = replace_operators pre ++ rewritten_word w ++ replace_operators post.
Proof.
  intros Hpre Hw Hpost.
  assert (Hwp : replace_operators (w ++ post)
                = rewritten_word w ++ replace_operators post).
  { destruct post as [| c post].
    - rewrite append_nil_r. cbn. now rewrite append_nil_r, replace_word.
    - cbn in Hpost. rewrite replace_cut by exact Hpost.
      rewrite replace_word by exact Hw. f_equal.
      change (String c post) with (EmptyString ++ String c post).
      now rewrite replace_cut. }
  destruct (ends_nonword_inv pre Hpre) as [-> | (pre' & c & -> & Hc)].
  - exact Hwp.
  - unfold str1. rewrite !append_assoc. cbn [append].
    rewrite replace_cut by exact Hc. rewrite Hwp.
    rewrite <- (append_nil_r (pre' ++ String c EmptyString)) at 1.
    rewrite append_assoc. cbn [append].
    rewrite (replace_cut pre' c EmptyString Hc).
    cbn. rewrite append_assoc. reflexivity.
Qed.

End Words.

(** * Reading back a rewritten string literal *)

Section Literals.

Lemma weave_append (x y : string) :
  forall marks,
    weave marks (x ++ y)
    = weave (firstn (String.length x) marks) x
      ++ weave (skipn (String.length x) marks) y.
Proof.
  induction x as [| c x IH]; intros marks; cbn [append String.length].
  - reflexivity.
  - destruct marks as [| [] marks]; cbn [firstn skipn weave append].
    + destruct y; reflexivity.
    + now rewrite IH.
    + now rewrite IH.
Qed.

(** The replacement only puts dollar signs into the text. *)
Lemma replace_from_weave (s : string) :
  forall (pw : bool) (skip : nat),
  exists marks,
    length marks = String.length s /\ replace_from pw skip s = weave marks s.
Proof.
  induction s as [| c s IH]; intros pw skip.
  - exists []. split; reflexivity.
  - cbn [replace_from]. destruct skip as [| k].
    + destruct (match_at pw (String c s)) as [m |].
      * destruct (IH (is_word c) (Nat.pred (String.length m))) as (marks & Hl & ->).
        exists (true :: marks). split; [cbn; now rewrite Hl | reflexivity].
      * destruct (IH (is_word c) 0%nat) as (marks & Hl & ->).
        exists (false :: marks). split; [cbn; now rewrite Hl | reflexivity].
    + destruct (IH (is_word c) k) as (marks & Hl & ->).
      exists (false :: marks). split; [cbn; now rewrite Hl | reflexivity].
Qed.

Lemma fold_snoc (d : list ascii) (acc : string) :
  fold_left snoc d acc = acc ++ string_of_list_ascii d.
Proof.
  revert acc. induction d as [| x d IH]; intros acc; cbn.
  - now rewrite append_nil_r.
  - rewrite IH. unfold snoc, str1. now rewrite append_assoc.
Qed.

Ltac compute_chunk :=
  match goal with
  | H : length _ = String.length ?q |- _ =>
      let q' := eval vm_compute in q in change q with q' in *
  end.

Ltac split_marks m H :=
  cbn in H;
  lazymatch type of H with
  | length _ = 0%nat => destruct m; [| discriminate H]
  | length _ = S _ =>
      let b := fresh "b" in
      destruct m as [| b m]; [discriminate H |];
      injection H as H; destruct b; split_marks m H
  end.

(** One code unit of the string, as the lexer and [unescape] read its
    rewritten escape. *)
Lemma read_chunk (c : ascii) (marks : list bool) :
  length marks = String.length (quote_char c) ->
  (forall acc tail,
      lex (LStr acc) (weave marks (quote_char c) ++ tail)
      = match unescape (weave marks (quote_char c)) with
        | Some d => lex (LStr (fold_left snoc (list_ascii_of_string d) acc)) tail
        | None => None
        end)
  /\ (forall tail,
      unescape (weave marks (quote_char c) ++ tail)
      = match unescape (weave marks (quote_char c)) with
        | Some d => option_map (append d) (unescape tail)
        | None => None
        end).
Proof.
  intros H.
  destruct c as [b0 b1 b2 b3 b4 b5 b6 b7].
  destruct b0, b1, b2, b3, b4, b5, b6, b7;
    compute_chunk; split_marks marks H;
    (split; intros; [reflexivity |]);
    cbn; destruct (unescape tail); reflexivity.
Qed.

Lemma unescape_quote_char (c : ascii) (tail : string) :
  unescape (quote_char c ++ tail) = option_map (String c) (unescape tail).
Proof.
  destruct c as [b0 b1 b2 b3 b4 b5 b6 b7].
  destruct b0, b1, b2, b3, b4, b5, b6, b7; reflexivity.
Qed.

(** Without the replacement, JSON.parse reads back what JSON.stringify
    wrote. *)
Lemma unescape_escape (s : string) : unescape (escape s) = Some s.
Proof.
  induction s as [| c s IH]; [reflexivity |].
  cbn [escape]. now rewrite unescape_quote_char, IH.
Qed.

(** The body of a rewritten string literal, as the lexer reads it up to the
    closing quote. *)
Lemma lex_body (s : string) :
  forall marks acc rest,
    length marks = String.length (escape s) ->
    lex (LStr acc) (weave marks (escape s) ++ String dquote rest)
    = match unescape (weave marks (escape s)) with
      | Some d => option_map (cons (TString (acc ++ d))) (lex LOut rest)
      | None => None
      end.
Proof.
  induction s as [| c s IH]; intros marks acc rest Hl.
  - cbn. now rewrite append_nil_r.
  - cbn [escape] in *. rewrite length_append in Hl.
    rewrite weave_append, append_assoc.
    destruct (read_chunk c (firstn (String.length (quote_char c)) marks)) as [Hlex Hun].
    { rewrite length_firstn. lia. }
    rewrite Hlex, Hun.
    destruct (unescape (weave (firstn _ marks) (quote_char c))) as [d |];
      [| reflexivity].
    rewrite fold_snoc, string_of_list_ascii_of_string.
    rewrite IH by (rewrite length_skipn; lia).
    destruct (unescape (weave (skipn _ marks) (escape s))) as [d' |];
      [| reflexivity].
    cbn [option_map]. now rewrite append_assoc.
Qed.

(** A string literal of the rewritten text. *)
Lemma lex_literal (s rest : string) :
  lex LOut (quote (replace_operators (escape s)) ++ rest)
  = match reread s with
    | Some d => option_map (cons (TString d)) (lex LOut rest)
    | None => None
    end.
Proof.
  unfold quote, reread, replace_operators.
  destruct (replace_from_weave (escape s) false 0) as (marks & Hl & ->).
  cbn [append lex]. rewrite append_assoc. cbn [str1 append].
  change (is_json_space dquote) with false. cbv iota.
  rewrite Ascii.eqb_refl.
  now rewrite lex_body.
Qed.

Lemma weave_dollar (s : string) :
  forall marks, weave marks s = s \/ has_dollar (weave marks s) = true.
Proof.
  induction s as [| c s IH]; intros marks; [now left |].
  destruct marks as [| [] marks]; cbn [weave].
  - now left.
  - now right.
  - destruct (IH marks) as [-> | H]; [now left | right].
    cbn. rewrite H. apply orb_true_r.
Qed.

Lemma simple_escape_not_dollar (e d : ascii) :
  simple_escape e = Some d -> Ascii.eqb e dollar = false.
Proof.
  destruct (Ascii.eqb_spec e dollar) as [-> |]; [discriminate | reflexivity].
Qed.

Lemma hex_value_not_dollar (h : ascii) (n : nat) :
  hex_value h = Some n -> Ascii.eqb h dollar = false.
Proof.
  destruct (Ascii.eqb_spec h dollar) as [-> |]; [discriminate | reflexivity].
Qed.

Lemma unicode_escape_not_dollar (h1 h2 h3 h4 d : ascii) :
  unicode_escape h1 h2 h3 h4 = Some d ->
  (Ascii.eqb h1 dollar || Ascii.eqb h2 dollar || Ascii.eqb h3 dollar
   || Ascii.eqb h4 dollar)%bool = false.
Proof.
  unfold unicode_escape.
  destruct (hex_value h1) eqn:E1; [| discriminate].
  destruct (hex_value h2) eqn:E2; [| discriminate].
  destruct (hex_value h3) eqn:E3; [| discriminate].
  destruct (hex_value h4) eqn:E4; [| discriminate].
  intros _.
  now rewrite (hex_value_not_dollar _ _ E1), (hex_value_not_dollar _ _ E2),
    (hex_value_not_dollar _ _ E3), (hex_value_not_dollar _ _ E4).
Qed.

(** A dollar sign in the body of a literal is never part of an escape: it
    is in the string read. *)
Lemma unescape_keeps_dollar (n : nat) :
  forall body d,
    (String.length body <= n)%nat ->
    unescape body = Some d -> has_dollar body = true -> has_dollar d = true.
Proof.
  induction n as [| n IH]; intros body d Hn.
  - destruct body; [| cbn in Hn; lia]. discriminate.
  - destruct body as [| c r]; [discriminate |].
    cbn in Hn. cbn [unescape].
    destruct (Ascii.eqb_spec c backslash) as [-> | Hc].
    + destruct r as [| e r']; [discriminate |].
      cbn in Hn.
      destruct (simple_escape e) as [x |] eqn:Ee.
      * destruct (unescape r') as [d' |] eqn:Er; [| discriminate].
        intros [= <-]. cbn [has_dollar].
        rewrite (simple_escape_not_dollar _ _ Ee).
        change (Ascii.eqb backslash dollar) with false. cbn [orb].
        intros H. rewrite (IH r' d' ltac:(lia) Er H). apply orb_true_r.
      * destruct (Ascii.eqb_spec e "u"%char) as [-> |]; [| discriminate].
        destruct r' as [| h1 [| h2 [| h3 [| h4 r'']]]]; try discriminate.
        cbn in Hn.
        destruct (unicode_escape h1 h2 h3 h4) as [x |] eqn:Eu; [| discriminate].
        destruct (unescape r'') as [d' |] eqn:Er; [| discriminate].
        intros [= <-]. cbn [has_dollar].
        change (Ascii.eqb backslash dollar) with false.
        change (Ascii.eqb "u" dollar) with false.
        pose proof (unicode_escape_not_dollar _ _ _ _ _ Eu) as Hh.
        apply orb_false_elim in Hh as [Hh H4].
        apply orb_false_elim in Hh as [Hh H3].
        apply orb_false_elim in Hh as [H1 H2].
        rewrite H1, H2, H3, H4. cbn [orb].
        intros H. rewrite (IH r'' d' ltac:(lia) Er H). apply orb_true_r.
    + destruct (Ascii.eqb c dquote); [discriminate |].
      destruct (Nat.ltb (code c) 32); [discriminate |].
      destruct (unescape r) as [d' |] eqn:Er; [| discriminate].
      intros [= <-]. cbn [has_dollar].
      destruct (Ascii.eqb c dollar); [reflexivity |]. cbn [orb].
      apply (IH r d' ltac:(lia) Er).
Qed.

(** A key or value that is read back without a dollar sign is the one that
    was written. *)
Lemma reread_without_dollar (s d : string) :
  reread s = Some d -> has_dollar d = false -> d = s.
Proof.
  unfold reread, replace_operators. intros H Hd.
  destruct (replace_from_weave (escape s) false 0) as (marks & _ & E).
  rewrite E in H.
  destruct (weave_dollar (escape s) marks) as [W | W].
  - rewrite W, unescape_escape in H. now inversion H.
  - rewrite (unescape_keeps_dollar _ _ _ (le_n _) H W) in Hd. discriminate.
Qed.

Lemma escape_plain (s : string) : plain s = true -> escape s = s.
Proof.
  induction s as [| c s IH]; [reflexivity |].
  cbn [plain escape]. intros H. apply andb_prop in H as [Hc Hs].
  rewrite (IH Hs). unfold plain_char in Hc.
  apply andb_prop in Hc as [Hc Hb]. apply andb_prop in Hc as [Hn Hq].
  unfold quote_char.
  destruct (Nat.ltb_spec (code c) 32) as [| H32]; [discriminate |].
  destruct (Ascii.eqb_spec c dquote) as [| Hq']; [discriminate |].
  destruct (Ascii.eqb_spec c backslash) as [| Hb']; [discriminate |].
  assert (H34 : code c <> 34%nat).
  { intros E. apply Hq'. rewrite <- (ascii_nat_embedding c).
    unfold code in E. now rewrite E. }
  assert (H92 : code c <> 92%nat).
  { intros E. apply Hb'. rewrite <- (ascii_nat_embedding c).
    unfold code in E. now rewrite E. }
  repeat match goal with
         | |- context [Nat.eqb (code c) ?k] =>
             destruct (Nat.eqb_spec (code c) k); [lia |]
         end.
  reflexivity.
Qed.

Lemma unescape_plain (s : string) : plain s = true -> unescape s = Some s.
Proof.
  induction s as [| c s IH]; [reflexivity |].
  cbn [plain unescape]. intros H. apply andb_prop in H as [Hc Hs].
  rewrite (IH Hs). unfold plain_char in Hc.
  apply andb_prop in Hc as [Hc Hb]. apply andb_prop in Hc as [Hn Hq].
  destruct (Ascii.eqb c backslash); [discriminate |].
  destruct (Ascii.eqb c dquote); [discriminate |].
  destruct (Nat.ltb (code c) 32); [discriminate |].
  reflexivity.
Qed.

Lemma weave_plain (s : string) :
  plain s = true -> forall marks, plain (weave marks s) = true.
Proof.
  induction s as [| c s IH]; intros H marks; [reflexivity |].
  cbn [plain] in H. apply andb_prop in H as [Hc Hs].
  destruct marks as [| [] marks]; cbn [weave plain].
  - now rewrite Hc, Hs.
  - now rewrite Hc, IH.
  - now rewrite Hc, IH.
Qed.

(** A plain key or value is read back as its replacement. *)
Lemma reread_plain (s : string) :
  plain s = true -> reread s = Some (replace_operators s).
Proof.
  intros H. unfold reread. rewrite (escape_plain s H).
  apply unescape_plain. unfold replace_operators.
  destruct (replace_from_weave s false 0) as (marks & _ & ->).
  now apply weave_plain.
Qed.

End Literals.

(** * Parsing the rewritten serialization *)

Section Parsing.

Lemma json_induction (P : json -> Prop) :
  (forall s, P (JStr s)) ->
  (forall l, Forall P l -> P (JArr l)) ->
  (forall m, Forall (fun kv => P (snd kv)) m -> P (JObj m)) ->
  forall v, P v.
Proof.
  intros HS HA HO.
  fix IH 1. intros [s | l | m].
  - apply HS.
  - apply HA. induction l as [| x l IHl]; constructor; [apply IH | exact IHl].
  - apply HO. induction m as [| kv m IHm]; constructor; [apply IH | exact IHm].
Qed.

Lemma concat_cons (x : string) (r : list string) :
  String.concat "," (x :: r) = x ++ comma_tail r.
Proof.
  revert x. induction r as [| y r IH]; intros x.
  - cbn. now rewrite append_nil_r.
  - change (String.concat "," (x :: y :: r)) with (x ++ "," ++ String.concat "," (y :: r)).
    rewrite IH. reflexivity.
Qed.

Lemma comma_tail_cons (y : string) (r : list string) :
  comma_tail (y :: r) = String "," (y ++ comma_tail r).
Proof. reflexivity. Qed.

Lemma append_cons (c : ascii) (x y : string) : String c x ++ y = String c (x ++ y).
Proof. reflexivity. Qed.

Lemma replace_punctuation (c : ascii) (b : string) :
  is_word c = false ->
  replace_operators (String c b) = String c (replace_operators b).
Proof.
  intros Hc. change (String c b) with (EmptyString ++ String c b).
  now rewrite replace_cut.
Qed.

Lemma replace_quoted (body tail : string) :
  replace_operators (quote body ++ tail)
  = quote (replace_operators body) ++ replace_operators tail.
Proof.
  unfold quote. cbn [append].
  rewrite replace_punctuation by reflexivity.
  rewrite !append_assoc. cbn [str1 append].
  now rewrite replace_cut by reflexivity.
Qed.

(** The replacement works inside the string literals of a serialization,
    on each of them by itself. *)
Lemma replace_stringify (v : json) :
  forall tail,
    replace_operators (stringify v ++ tail)
    = rewritten_text v ++ replace_operators tail.
Proof.
  induction v as [s | l IHl | m IHm] using json_induction; intros tail;
    unfold stringify, rewritten_text in *; cbn [stringify_with].
  - apply replace_quoted.
  - cbn [append]. rewrite replace_punctuation by reflexivity. f_equal.
    destruct l as [| x l].
    + cbn [map String.concat append]. now rewrite replace_punctuation by reflexivity.
    + cbn [map]. rewrite !concat_cons, !append_assoc.
      inversion IHl as [| ? ? Hx Hl]; subst. rewrite Hx. f_equal.
      clear Hx IHl. induction Hl as [| y l Hy Hl IH]; cbn [map comma_tail fold_right append].
      * now rewrite replace_punctuation by reflexivity.
      * rewrite replace_punctuation by reflexivity. f_equal.
        rewrite !append_assoc, Hy. f_equal. apply IH.
  - cbn [append]. rewrite replace_punctuation by reflexivity. f_equal.
    destruct m as [| x m].
    + cbn [map String.concat append]. now rewrite replace_punctuation by reflexivity.
    + cbn [map]. rewrite !concat_cons, !append_assoc.
      inversion IHm as [| ? ? Hx Hm]; subst.
      rewrite replace_quoted. f_equal. cbn [append].
      rewrite replace_punctuation by reflexivity. f_equal.
      rewrite Hx. f_equal.
      clear Hx IHm. induction Hm as [| y m Hy Hm IH]; cbn [map comma_tail fold_right append].
      * now rewrite replace_punctuation by reflexivity.
      * rewrite replace_punctuation by reflexivity. f_equal.
        rewrite !append_assoc, replace_quoted. f_equal. cbn [append].
        rewrite replace_punctuation by reflexivity. f_equal.
        rewrite Hy. f_equal. apply IH.
Qed.

Lemma lex_punctuation (c : ascii) (t : token) (r : string) :
  punctuation c = Some t ->
  lex LOut (String c r) = option_map (cons t) (lex LOut r).
Proof.
  unfold punctuation.
  repeat match goal with
         | |- context [Ascii.eqb c ?k] =>
             destruct (Ascii.eqb_spec c k) as [-> |];
             [intros [= <-]; reflexivity |]
         end.
  discriminate.
Qed.

Lemma append_empty (y : string) : EmptyString ++ y = y.
Proof. reflexivity. Qed.

(** Appends nested to the right, with the code units that are known in
    front. *)
Ltac right_nested :=
  repeat (rewrite append_assoc || rewrite append_cons || rewrite append_empty).

(** The lexer on the rewritten serialization of a value: the tokens of the
    value read back, or a failure when one of its literals is
    ill-formed. *)
Lemma lex_rewritten (v : json) :
  forall rest,
    lex LOut (rewritten_text v ++ rest)
    = match reread_value v with
      | Some v' => option_map (app (tokens_of v')) (lex LOut rest)
      | None => None
      end.
Proof.
  induction v as [s | l IHl | m IHm] using json_induction; intros rest;
    unfold rewritten_text in *; cbn [stringify_with reread_value].
  - rewrite lex_literal. destruct (reread s); [| reflexivity].
    cbn. now destruct (lex LOut rest).
  - assert (T : forall l, Forall (fun v => forall rest,
                  lex LOut (stringify_with (fun s => replace_operators (escape s)) v ++ rest)
                  = match reread_value v with
                    | Some v' => option_map (app (tokens_of v')) (lex LOut rest)
                    | None => None
                    end) l ->
                lex LOut (comma_tail (map (stringify_with
                            (fun s => replace_operators (escape s))) l)
                          ++ String "]" rest)
                = match sequence (map reread_value l) with
                  | Some l' =>
                      option_map (app (flat_map (cons TComma) (map tokens_of l')
                                       ++ [TRBracket]))
                        (lex LOut rest)
                  | None => None
                  end).
    { clear. intros l H. induction H as [| y l Hy Hl IH]; cbn [map sequence].
      - cbn [comma_tail fold_right]. right_nested.
        rewrite (lex_punctuation _ TRBracket) by reflexivity.
        now destruct (lex LOut rest).
      - rewrite comma_tail_cons. right_nested.
        rewrite (lex_punctuation _ TComma) by reflexivity.
        rewrite Hy.
        destruct (reread_value y) as [y' |]; [| reflexivity].
        rewrite IH.
        destruct (sequence (map reread_value l)) as [l' |]; [| reflexivity].
        destruct (lex LOut rest) as [ts |]; [| reflexivity].
        cbn. now rewrite <- !app_assoc. }
    destruct l as [| x l]; cbn [map sequence].
    + cbn [String.concat]. right_nested.
      rewrite (lex_punctuation _ TLBracket) by reflexivity.
      rewrite (lex_punctuation _ TRBracket) by reflexivity.
      now destruct (lex LOut rest).
    + rewrite concat_cons. right_nested.
      rewrite (lex_punctuation _ TLBracket) by reflexivity.
      inversion IHl as [| ? ? Hx Hl]; subst. rewrite Hx.
      destruct (reread_value x) as [x' |]; [| reflexivity].
      rewrite (T l Hl).
      destruct (sequence (map reread_value l)) as [l' |]; [| reflexivity].
      destruct (lex LOut rest) as [ts |]; [| reflexivity].
      cbn. now rewrite <- !app_assoc.
  - assert (M : forall kv rest,
              (forall rest,
                  lex LOut (stringify_with (fun s => replace_operators (escape s)) (snd kv) ++ rest)
                  = match reread_value (snd kv) with
                    | Some v' => option_map (app (tokens_of v')) (lex LOut rest)
                    | None => None
                    end) ->
              lex LOut (quote (replace_operators (escape (fst kv)))
                        ++ String ":"
                             (stringify_with (fun s => replace_operators (escape s))
                                (snd kv) ++ rest))
              = match reread_member reread_value kv with
                | Some kv' =>
                    option_map (app (TString (fst kv') :: TColon :: tokens_of (snd kv')))
                      (lex LOut rest)
                | None => None
                end).
    { clear. intros [k v] rest H. cbn [fst snd] in *. unfold reread_member.
      cbn [fst snd]. rewrite lex_literal.
      destruct (reread k) as [k' |]; [| reflexivity].
      rewrite (lex_punctuation _ TColon) by reflexivity.
      rewrite H. destruct (reread_value v) as [v' |]; [| reflexivity].
      now destruct (lex LOut rest). }
    assert (T : forall m, Forall (fun kv => forall rest,
                  lex LOut (stringify_with (fun s => replace_operators (escape s)) (snd kv) ++ rest)
                  = match reread_value (snd kv) with
                    | Some v' => option_map (app (tokens_of v')) (lex LOut rest)
                    | None => None
                    end) m ->
                lex LOut (comma_tail
                            (map (fun kv =>
                                    quote (replace_operators (escape (fst kv))) ++ ":"
                                    ++ stringify_with
                                         (fun s => replace_operators (escape s)) (snd kv)) m)
                          ++ String "}" rest)
                = match sequence (map (reread_member reread_value) m) with
                  | Some m' =>
                      option_map
                        (app (flat_map (cons TComma)
                                (map (fun kv => TString (fst kv) :: TColon
                                                  :: tokens_of (snd kv)) m')
                              ++ [TRBrace]))
                        (lex LOut rest)
                  | None => None
                  end).
    { clear - M. intros m H. induction H as [| y m Hy Hm IH]; cbn [map sequence].
      - cbn [comma_tail fold_right]. right_nested.
        rewrite (lex_punctuation _ TRBrace) by reflexivity.
        now destruct (lex LOut rest).
      - rewrite comma_tail_cons. right_nested.
        rewrite (lex_punctuation _ TComma) by reflexivity.
        rewrite (M y _ Hy).
        destruct (reread_member reread_value y) as [y' |]; [| reflexivity].
        rewrite IH.
        destruct (sequence (map (reread_member reread_value) m)) as [m' |];
          [| reflexivity].
        destruct (lex LOut rest) as [ts |]; [| reflexivity].
        cbn. now rewrite <- !app_assoc. }
    destruct m as [| x m]; cbn [map sequence].
    + cbn [String.concat]. right_nested.
      rewrite (lex_punctuation _ TLBrace) by reflexivity.
      rewrite (lex_punctuation _ TRBrace) by reflexivity.
      now destruct (lex LOut rest).
    + rewrite concat_cons. right_nested.
      rewrite (lex_punctuation _ TLBrace) by reflexivity.
      inversion IHm as [| ? ? Hx Hm]; subst.
      rewrite (M x _ Hx).
      destruct (reread_member reread_value x) as [x' |]; [| reflexivity].
      rewrite (T m Hm).
      destruct (sequence (map (reread_member reread_value) m)) as [m' |];
        [| reflexivity].
      destruct (lex LOut rest) as [ts |]; [| reflexivity].
      cbn. now rewrite <- !app_assoc.
Qed.

Lemma parser_run_first_element (v : json) (stk : list frame) (rest : list token) :
  parser_run (SArrOpen stk) (tokens_of v ++ rest)
  = parser_run (SValue (FArr [] :: stk)) (tokens_of v ++ rest).
Proof. destruct v; reflexivity. Qed.

(** The parser on the tokens of a value: the value is handed to the
    enclosing container, its objects built member by member. *)
Lemma parser_run_value (v : json) :
  forall stk rest,
    parser_run (SValue stk) (tokens_of v ++ rest)
    = parser_run (give_value (normalize v) stk) rest.
Proof.
  induction v as [s | l IHl | m IHm] using json_induction; intros stk rest.
  - reflexivity.
  - assert (T : forall l, Forall (fun v => forall stk rest,
                  parser_run (SValue stk) (tokens_of v ++ rest)
                  = parser_run (give_value (normalize v) stk) rest) l ->
                forall acc,
                  parser_run (SArrNext acc stk)
                    (flat_map (cons TComma) (map tokens_of l) ++ TRBracket :: rest)
                  = parser_run (give_value (JArr (rev acc ++ map normalize l)) stk) rest).
    { clear. intros l H. induction H as [| y l Hy Hl IH]; intros acc.
      - cbn. now rewrite app_nil_r.
      - cbn [map flat_map]. rewrite <- !app_comm_cons, <- app_assoc.
        cbn [parser_run parser_step]. rewrite Hy. cbn [give_value].
        rewrite IH. cbn [rev map]. now rewrite <- app_assoc. }
    cbn [tokens_of normalize]. rewrite <- app_comm_cons. cbn [parser_run parser_step start_value].
    destruct l as [| x l]; [reflexivity |].
    cbn [map separated]. rewrite <- !app_assoc.
    inversion IHl as [| ? ? Hx Hl]; subst.
    rewrite parser_run_first_element, Hx. cbn [give_value].
    cbn [app]. apply (T l Hl [normalize x]).
  - assert (T : forall m, Forall (fun kv => forall stk rest,
                  parser_run (SValue stk) (tokens_of (snd kv) ++ rest)
                  = parser_run (give_value (normalize (snd kv)) stk) rest) m ->
                forall acc,
                  parser_run (SObjNext acc stk)
                    (flat_map (cons TComma)
                       (map (fun kv => TString (fst kv) :: TColon :: tokens_of (snd kv)) m)
                     ++ TRBrace :: rest)
                  = parser_run
                      (give_value
                         (JObj (build_object
                                  (rev acc ++ map (fun kv => (fst kv, normalize (snd kv))) m)))
                         stk) rest).
    { clear. intros m H. induction H as [| y m Hy Hm IH]; intros acc.
      - cbn. now rewrite app_nil_r.
      - cbn [map flat_map]. rewrite <- !app_comm_cons, <- app_assoc.
        cbn [parser_run parser_step]. rewrite Hy. cbn [give_value].
        rewrite IH. cbn [rev map]. now rewrite <- app_assoc. }
    cbn [tokens_of normalize]. rewrite <- app_comm_cons. cbn [parser_run parser_step start_value].
    destruct m as [| x m]; [reflexivity |].
    cbn [map separated]. rewrite <- !app_comm_cons, <- !app_assoc.
    cbn [parser_run parser_step].
    inversion IHm as [| ? ? Hx Hm]; subst.
    rewrite Hx. cbn [give_value].
    cbn [app]. apply (T m Hm [(fst x, normalize (snd x))]).
Qed.

(** JSON.parse on the rewritten serialization of a value. *)
Lemma parse_rewritten (v : json) :
  JSON_parse (replace_operators (stringify v))
  = option_map normalize (reread_value v).
Proof.
  unfold JSON_parse.
  rewrite <- (append_nil_r (stringify v)), replace_stringify.
  rewrite lex_rewritten.
  destruct (reread_value v) as [v' |]; [| reflexivity].
  change (lex LOut (replace_operators EmptyString)) with (Some (@nil token)).
  cbn [option_map]. rewrite parser_run_value. reflexivity.
Qed.

End Parsing.

(** * Properties of filter *)

Section Filter.

Import ApiFeatures.

Lemma delete_in {A : Type} (k : string) (m : list (string * A)) (kv : string * A) :
  In kv (delete k m) <-> In kv m /\ fst kv <> k.
Proof.
  unfold delete. rewrite filter_In.
  destruct (String.eqb_spec (fst kv) k); cbn; intuition congruence.
Qed.

Lemma delete_all_in {A : Type} (ks : list string) :
  forall (m : list (string * A)) (kv : string * A),
    In kv (fold_left (fun obj el => delete el obj) ks m)
    <-> In kv m /\ ~ In (fst kv) ks.
Proof.
  induction ks as [| k ks IH]; intros m kv; cbn [fold_left].
  - cbn. tauto.
  - rewrite IH, delete_in. cbn. intuition congruence.
Qed.

(** The object that filter serializes holds the properties of the mapping
    whose key is not reserved. *)
Lemma queryObj_in (qs : QueryString) (kv : string * json) :
  In kv (queryObj qs) <-> In kv (properties qs) /\ ~ In (fst kv) excludedFields.
Proof. apply delete_all_in. Qed.

Lemma set_property_keys {A : Type} (k : string) (v : A) (m : list (string * A)) (k' : string) :
  In k' (keys (set_property k v m)) -> k' = k \/ In k' (keys m).
Proof.
  induction m as [| [k0 v0] m IH]; cbn.
  - intuition.
  - destruct (String.eqb k0 k); cbn; intuition.
Qed.

Lemma build_object_keys (members : list (string * json)) (k : string) :
  In k (keys (build_object members)) -> In k (keys members).
Proof.
  unfold build_object.
  assert (G : forall acc,
             In k (keys (fold_left (fun m kv => set_property (fst kv) (snd kv) m) members acc)) ->
             In k (keys acc) \/ In k (keys members)).
  { induction members as [| [k0 v0] members IH]; intros acc H; cbn in *.
    - now left.
    - apply IH in H as [H | H]; [| now right; right].
      apply set_property_keys in H as [-> | H]; [right; now left | now left]. }
  intros H. apply G in H as [[] | H]. exact H.
Qed.

Lemma sequence_in {A B : Type} (f : A -> option B) (l : list A) (l' : list B) (y : B) :
  sequence (map f l) = Some l' -> In y l' -> exists x, In x l /\ f x = Some y.
Proof.
  revert l'. induction l as [| x l IH]; intros l' H Hy; cbn in H.
  - inversion H; subst. destruct Hy.
  - destruct (f x) as [y0 |] eqn:E; [| discriminate].
    destruct (sequence (map f l)) as [l0 |]; [| discriminate].
    inversion H; subst. destruct Hy as [<- | Hy].
    + exists x. split; [now left | exact E].
    + destruct (IH l0 eq_refl Hy) as (x' & Hx & Hf).
      exists x'. split; [now right | exact Hf].
Qed.

Lemma get_property_none {A : Type} (k : string) (m : list (string * A)) :
  ~ In k (keys m) -> get_property k m = None.
Proof.
  induction m as [| [k0 v0] m IH]; cbn; [reflexivity |].
  intros H. destruct (String.eqb_spec k0 k); [tauto |]. apply IH. tauto.
Qed.

Lemma reserved_without_dollar (k : string) :
  In k excludedFields -> has_dollar k = false.
Proof.
  cbn. intros H. repeat destruct H as [<- | H]; try reflexivity. destruct H.
Qed.

(** What JSON.parse returns in filter is an object, and none of its keys
    is reserved. *)
Lemma parsed_filters_keys (qs : QueryString) (parsed : json) :
  parsed_filters qs = Some parsed ->
  exists m, parsed = JObj m /\ forall k, In k excludedFields -> ~ In k (keys m).
Proof.
  unfold parsed_filters. rewrite parse_rewritten. cbn [reread_value].
  destruct (sequence (map (reread_member reread_value) (queryObj qs))) as [m' |] eqn:E;
    [| discriminate].
  intros [= <-]. cbn [normalize]. eexists. split; [reflexivity |].
  intros k Hk Hin. apply build_object_keys in Hin.
  unfold keys in Hin. rewrite map_map in Hin. cbn [fst] in Hin.
  apply in_map_iff in Hin as ([k' v'] & <- & Hin). cbn [fst] in Hk.
  destruct (sequence_in _ _ _ _ E Hin) as ([k0 v0] & H0 & Hr).
  unfold reread_member in Hr. cbn [fst snd] in Hr.
  destruct (reread k0) as [k1 |] eqn:Ek; [| discriminate].
  destruct (reread_value v0); [| discriminate].
  inversion Hr; subst.
  pose proof (reread_without_dollar k0 k' Ek (reserved_without_dollar k' Hk)) as Heq.
  subst k0. apply queryObj_in in H0 as [_ H0]. now apply H0.
Qed.

Lemma plain_fields_keys (m : list (string * json)) : keys (plain_fields m) = keys m.
Proof.
  unfold keys, plain_fields. rewrite map_map. reflexivity.
Qed.

Lemma get_property_in {A : Type} (k : string) (m : list (string * A)) (v : A) :
  get_property k m = Some v -> In k (keys m).
Proof.
  induction m as [| [k0 v0] m IH]; cbn; [discriminate |].
  destruct (String.eqb_spec k0 k); [now left | right; now apply IH].
Qed.

Lemma handle_date_keys (m : list (string * json)) (c : conditions) :
  handle_date (JObj m) = Ok c ->
  exists fs, c = Fields fs /\ forall k, In k (keys fs) -> In k (keys m).
Proof.
  cbn [handle_date].
  assert (P : exists fs, Fields (plain_fields m) = Fields fs
                         /\ forall k, In k (keys fs) -> In k (keys m)).
  { eexists. split; [reflexivity |]. intros k. now rewrite plain_fields_keys. }
  destruct (get_property "date" m) as [d |] eqn:E; [| now intros [= <-]].
  destruct (truthy_json d); [| now intros [= <-]].
  destruct (date_bound d "$gte") as [gte | e]; [| discriminate].
  destruct (date_bound d "$lte") as [lte | e]; [| discriminate].
  intros [= <-]. eexists. split; [reflexivity |].
  intros k Hk. apply set_property_keys in Hk as [-> | Hk].
  - now apply get_property_in in E.
  - now rewrite plain_fields_keys in Hk.
Qed.

Lemma date_bound_raises (d : json) (k : string) (e : exn) :
  date_bound d k = Raise e -> e = TypeError.
Proof.
  unfold date_bound. destruct d as [s | l | m]; try discriminate.
  destruct (get_property k m) as [x |]; [| discriminate].
  destruct (truthy_json x); [| discriminate].
  destruct (to_primitive_throws x); [| discriminate].
  now intros [= <-].
Qed.

(** The date case throws nothing but a TypeError. *)
Lemma handle_date_raises (v : json) (e : exn) :
  handle_date v = Raise e -> e = TypeError.
Proof.
  unfold handle_date. destruct v as [s | l | m]; try discriminate.
  destruct (get_property "date" m) as [d |]; [| discriminate].
  destruct (truthy_json d); [| discriminate].
  destruct (date_bound d "$gte") as [gte | e1] eqn:E1.
  - destruct (date_bound d "$lte") as [lte | e2] eqn:E2; [discriminate |].
    intros [= <-]. exact (date_bound_raises _ _ _ E2).
  - intros [= <-]. exact (date_bound_raises _ _ _ E1).
Qed.

Variable countDocuments : conditions -> option Z.

(** How filter completes, in terms of the parse, of the date case and of
    the answer of the database. *)
Lemma filter_outcome (api : ApiFeatures.t) :
  filter countDocuments api
  = match parsed_filters (queryString api) with
    | None => {| this := api; completed := Thrown SyntaxError; count_queries := [] |}
    | Some parsed =>
        match handle_date parsed with
        | Raise e => {| this := api; completed := Thrown e; count_queries := [] |}
        | Ok filters =>
            let page_given := truthy (qs_page (queryString api)) in
            {| this :=
                 {| query := (query api ++ [Find filters])%list;
                    queryString := queryString api;
                    total := if page_given
                             then match countDocuments filters with
                                  | Some n => Some n
                                  | None => total api
                                  end
                             else total api |};
               completed := if page_given
                            then match countDocuments filters with
                                 | Some _ => Returned
                                 | None => Thrown DatabaseError
                                 end
                            else Returned;
               count_queries := if page_given then [filters] else [] |}
        end
    end.
Proof.
  unfold filter. destruct (parsed_filters (queryString api)); [| reflexivity].
  destruct (handle_date _); [| reflexivity]. cbn zeta.
  destruct (truthy _); [| reflexivity].
  destruct (countDocuments _); reflexivity.
Qed.

(** C7: whenever filter hands a predicate to the handle, that predicate is
    an object without an entry for page, sort, limit, fields, search or
    populate. *)
Theorem filter_excludes_reserved_keys (api : ApiFeatures.t) :
  query (this (filter countDocuments api)) <> query api ->
  exists fs,
    query (this (filter countDocuments api)) = (query api ++ [Find (Fields fs)])%list
    /\ forall k, In k excludedFields -> ~ In k (keys fs) /\ get_property k fs = None.
Proof.
  rewrite filter_outcome.
  destruct (parsed_filters (queryString api)) as [parsed |] eqn:E;
    [| intros H; now destruct H].
  destruct (parsed_filters_keys _ _ E) as (m & -> & Hm).
  destruct (handle_date (JObj m)) as [c | e] eqn:D; [| intros H; now destruct H].
  destruct (handle_date_keys m c D) as (fs & -> & Hfs).
  intros _. exists fs. split; [reflexivity |].
  intros k Hk.
  assert (Hn : ~ In k (keys fs)) by (intros H; apply (Hm k Hk), Hfs, H).
  split; [exact Hn | now apply get_property_none].
Qed.

(** C3 (as amended): filter sends a count query exactly when the page value
    is present and not empty and the predicate has been built; the query is
    then the one count, against the very predicate that filter has just
    handed to the handle, and its result is recorded in total when the
    database answers.  When the page value is absent or empty, no count is
    sent and total is left as it was: null after the constructor.  A filter
    that throws before the predicate is built sends no count and leaves the
    object untouched. *)
Theorem filter_count (api : ApiFeatures.t) :
  let page_given :=
    match qs_page (queryString api) with
    | Some (String _ _) => true
    | Some EmptyString => false
    | None => false
    end in
  let o := filter countDocuments api in
  match completed o with
  | Returned =>
      exists filters,
        query (this o) = (query api ++ [Find filters])%list
        /\ count_queries o = (if page_given then [filters] else [])
        /\ total (this o) = (if page_given then countDocuments filters else total api)
        /\ (if page_given then countDocuments filters <> None else True)
  | Thrown DatabaseError =>
      exists filters,
        query (this o) = (query api ++ [Find filters])%list
        /\ page_given = true
        /\ count_queries o = [filters]
        /\ countDocuments filters = None
        /\ total (this o) = total api
  | Thrown _ => this o = api /\ count_queries o = []
  end
  /\ (if page_given then True
      else count_queries o = []
           /\ total (this (filter countDocuments
                             (constructor (query api) (queryString api)))) = None).
Proof.
  cbn zeta. rewrite !filter_outcome. cbn [queryString constructor].
  destruct (parsed_filters (queryString api)) as [parsed |];
    cbn [completed this count_queries query total].
  - destruct (handle_date parsed) as [filters | e] eqn:D;
      [| rewrite (handle_date_raises _ _ D)];
      cbn [completed this count_queries query total].
    + destruct (qs_page (queryString api)) as [[| c r] |]; cbn [truthy].
      * split; [| now split]. exists filters. repeat split.
      * destruct (countDocuments filters) as [n |] eqn:C.
        -- split; [| trivial]. exists filters. rewrite C. repeat split. discriminate.
        -- split; [| trivial]. exists filters. repeat split. exact C.
      * split; [| now split]. exists filters. repeat split.
    + split; [now split |].
      destruct (qs_page (queryString api)) as [[| c r] |]; cbn; auto.
  - split; [now split |].
    destruct (qs_page (queryString api)) as [[| c r] |]; cbn; auto.
Qed.

End Filter.

Lemma filter_excludes_reserved_keys_witness :
  let api :=
    ApiFeatures.constructor []
      (with_limit (Some "5") (with_page (Some "2")
         (only [("sort", JStr "gt"); ("price", JObj [("gte", JStr "5")])]))) in
  let o := ApiFeatures.filter (fun _ => Some 3) api in
  ApiFeatures.query (ApiFeatures.this o) <> ApiFeatures.query api
  /\ exists fs,
       ApiFeatures.query (ApiFeatures.this o)
       = (ApiFeatures.query api ++ [Find (Fields fs)])%list
       /\ forall k, In k ApiFeatures.excludedFields ->
                    ~ In k (keys fs) /\ get_property k fs = None.
Proof.
  split; [discriminate |].
  apply (filter_excludes_reserved_keys (fun _ => Some 3)). discriminate.
Defined.

(** C3 (as stated) fails for a page value that is present but empty: the
    mapping contains a page entry, filter completes, and yet no count is
    sent and total stays null. *)
Lemma filter_empty_page_counterexample :
  let qs := with_page (Some EmptyString) (only [("name", JStr "Alice")]) in
  let o := ApiFeatures.filter (fun _ => Some 7) (ApiFeatures.constructor [] qs) in
  qs_page qs <> None
  /\ ApiFeatures.completed o = Returned
  /\ ApiFeatures.count_queries o = []
  /\ ApiFeatures.total (ApiFeatures.this o) = None.
Proof.
  repeat split. discriminate.
Qed.

Section Rewriting.

Import ApiFeatures.

Variable countDocuments : conditions -> option Z.

(** C2 (as amended): filter serializes the properties of the mapping whose
    key is not reserved, and the replacement puts a dollar sign before
    every delimited word of that text that is one of the ten operators,
    wherever the word stands: in a bracketed suffix (the key gte under
    price becomes $gte), and equally in a top-level key or in a string
    value.  A word that is no operator is left as it is.  Hence every key
    and string is read back through the replacement; for one without quote,
    backslash and control character that is its replacement.  If a
    rewritten literal is ill-formed filter throws; otherwise, unless the
    date case throws, the handle gains one find with the object read, the
    date entry replaced. *)
Theorem filter_rewrites (api : ApiFeatures.t) :
  let obj := queryObj (queryString api) in
  let o := filter countDocuments api in
  parsed_filters (queryString api) = option_map normalize (reread_value (JObj obj))
  /\ (forall kv, In kv obj <->
                 In kv (properties (queryString api)) /\ ~ In (fst kv) excludedFields)
  /\ match reread_value (JObj obj) with
     | Some read =>
         match handle_date (normalize read) with
         | Ok filters => query (this o) = (query api ++ [Find filters])%list
         | Raise e => completed o = Thrown e /\ this o = api
         end
     | None => completed o = Thrown SyntaxError /\ this o = api
     end
  /\ (forall s, plain s = true -> reread s = Some (replace_operators s))
  /\ (forall pre w post,
        last_is_word false pre = false -> is_a_word w = true ->
        head_is_word post = false ->
        replace_operators (pre ++ w ++ post)
        = replace_operators pre
          ++ (if is_operator w then String dollar w else w)
          ++ replace_operators post)
  /\ parsed_filters (only [("price", JObj [("gte", JStr "100"); ("lte", JStr "500")]);
                           ("category", JStr "electronics")])
     = Some (JObj [("price", JObj [("$gte", JStr "100"); ("$lte", JStr "500")]);
                   ("category", JStr "electronics")]).
Proof.
  cbn zeta.
  assert (E : parsed_filters (queryString api)
              = option_map normalize (reread_value (JObj (queryObj (queryString api))))).
  { unfold parsed_filters. apply parse_rewritten. }
  split; [exact E |].
  split; [intros kv; apply queryObj_in |].
  split.
  - rewrite filter_outcome, E.
    destruct (reread_value (JObj (queryObj (queryString api)))) as [read |];
      cbn [option_map]; [| now split].
    destruct (handle_date (normalize read)); [reflexivity | now split].
  - split; [exact reread_plain |].
    split; [| reflexivity].
    intros pre w post Hpre Hw Hpost.
    now rewrite replace_delimited_word.
Qed.

End Rewriting.

(** C2 (as stated) fails for the mapping {status: "in"}: the value is no
    bracketed suffix, so the claim leaves it alone, but filter hands the
    predicate {status: "$in"} to the handle. *)
Lemma filter_rewrites_value_counterexample :
  let qs := only [("status", JStr "in")] in
  ApiFeatures.parsed_filters qs = Some (JObj [("status", JStr "$in")])
  /\ bracketed_rewrite (ApiFeatures.queryObj qs) = JObj [("status", JStr "in")]
  /\ handle_date (bracketed_rewrite (ApiFeatures.queryObj qs))
     = Ok (Fields (plain_fields (ApiFeatures.queryObj qs)))
  /\ ApiFeatures.query
       (ApiFeatures.this
          (ApiFeatures.filter (fun _ => Some 0) (ApiFeatures.constructor [] qs)))
     <> [Find (Fields (plain_fields (ApiFeatures.queryObj qs)))].
Proof.
  repeat split. discriminate.
Qed.

Section Occurrences.

Import ApiFeatures.

Lemma operators_plain (op : string) : is_operator op = true -> plain op = true.
Proof.
  unfold is_operator, operators. cbn [existsb].
  repeat match goal with
         | |- context [String.eqb op ?k] =>
             destruct (String.eqb_spec op k) as [-> |]; [reflexivity |]
         end.
  discriminate.
Qed.

Lemma operators_words (op : string) : is_operator op = true -> is_a_word op = true.
Proof.
  unfold is_operator, operators. cbn [existsb].
  repeat match goal with
         | |- context [String.eqb op ?k] =>
             destruct (String.eqb_spec op k) as [-> |]; [reflexivity |]
         end.
  discriminate.
Qed.

Lemma queryObj_single (field : string) (v : json) :
  queryObj (only [(field, v)])
  = if existsb (String.eqb field) excludedFields then [] else [(field, v)].
Proof.
  unfold queryObj, only, properties, excludedFields, delete. cbn.
  repeat (destruct (String.eqb field _); cbn; try reflexivity).
Qed.

(** C10: the replacement puts the dollar sign before every occurrence of an
    operator that is delimited in the serialization, whatever surrounds it;
    so a string value that is an operator word is read back with the dollar
    sign, and so is a field name: the mapping {status: "in"} gives the
    predicate {status: "$in"}, the mapping {in: "x"} the predicate
    {$in: "x"}. *)
Theorem replace_every_occurrence (op pre post : string) :
  is_operator op = true ->
  last_is_word false pre = false ->
  head_is_word post = false ->
  replace_operators (pre ++ op ++ post)
  = replace_operators pre ++ String dollar op ++ replace_operators post
  /\ reread op = Some (String dollar op)
  /\ (forall field,
        parsed_filters (only [(field, JStr op)])
        = if existsb (String.eqb field) excludedFields then Some (JObj [])
          else option_map (fun f => JObj [(f, JStr (String dollar op))]) (reread field))
  /\ parsed_filters (only [("status", JStr "in")]) = Some (JObj [("status", JStr "$in")])
  /\ parsed_filters (only [("in", JStr "x")]) = Some (JObj [("$in", JStr "x")]).
Proof.
  intros Hop Hpre Hpost.
  assert (Hr : reread op = Some (String dollar op)).
  { rewrite reread_plain by now apply operators_plain.
    rewrite replace_word by now apply operators_words.
    unfold rewritten_word. now rewrite Hop. }
  split.
  - rewrite replace_delimited_word; auto using operators_words.
    unfold rewritten_word. now rewrite Hop.
  - split; [exact Hr |]. split; [| split; reflexivity].
    intros field. unfold parsed_filters. rewrite parse_rewritten, queryObj_single.
    destruct (existsb (String.eqb field) excludedFields); [reflexivity |].
    cbn [reread_value map sequence]. unfold reread_member. cbn [fst snd reread_value].
    rewrite Hr. destruct (reread field); reflexivity.
Qed.

End Occurrences.

Lemma replace_every_occurrence_witness :
  replace_operators ("{" ++ String dquote "status" ++ String dquote ":"
                     ++ str1 dquote ++ "nin" ++ String dquote "}")
  = replace_operators ("{" ++ String dquote "status" ++ String dquote ":" ++ str1 dquote)
    ++ String dollar "nin" ++ replace_operators (String dquote "}")
  /\ reread "nin" = Some (String dollar "nin").
Proof.
  pose proof (replace_every_occurrence "nin"
    ("{" ++ String dquote "status" ++ String dquote ":" ++ str1 dquote)
    (String dquote "}") eq_refl eq_refl eq_refl) as (H1 & H2 & _).
  split; [| exact H2].
  rewrite <- H1. reflexivity.
Defined.

Lemma filter_rewrites_witness :
  replace_operators ("price[" ++ "gte" ++ "]=" ++ "gt" ++ "&a=" ++ "gtx")
  = "price[$gte]=$gt&a=gtx"
  /\ reread "lte" = Some "$lte".
Proof.
  pose proof (filter_rewrites (fun _ => Some 0) (ApiFeatures.constructor [] (only [])))
    as (_ & _ & _ & Hplain & Hword & _).
  split.
  - rewrite (Hword "price[" "gte" ("]=" ++ "gt" ++ "&a=" ++ "gtx") eq_refl eq_refl eq_refl).
    rewrite (Hword "]=" "gt" ("&a=" ++ "gtx") eq_refl eq_refl eq_refl).
    rewrite <- (append_nil_r "gtx").
    rewrite (Hword "&a=" "gtx" EmptyString eq_refl eq_refl eq_refl).
    reflexivity.
  - rewrite (Hplain "lte" eq_refl). reflexivity.
Defined.

(** A filter that throws: the value of [note] is a line feed followed by
    the letter e, written as a backslash and the word "ne", which the
    replacement turns into an ill-formed escape. *)
Lemma filter_throws_example :
  let qs := with_page (Some "1")
              (only [("note", JStr (String (ascii_of_nat 10) "e"))]) in
  stringify (JObj (ApiFeatures.queryObj qs))
  = "{" ++ String dquote "note" ++ String dquote ":" ++ String dquote "\ne"
        ++ String dquote "}"
  /\ replace_operators (stringify (JObj (ApiFeatures.queryObj qs)))
     = "{" ++ String dquote "note" ++ String dquote ":" ++ String dquote "\$ne"
           ++ String dquote "}"
  /\ ApiFeatures.filter (fun _ => Some 7) (ApiFeatures.constructor [] qs)
     = {| ApiFeatures.this := ApiFeatures.constructor [] qs;
          ApiFeatures.completed := Thrown SyntaxError;
          ApiFeatures.count_queries := [] |}.
Proof.
  repeat split.
Qed.

(** * Further properties: sort, limitFields, populate *)

Section Splitting.

Import ApiFeatures.

Lemma split_cons (sep : ascii) (s : string) : exists h t, split sep s = h :: t.
Proof.
  destruct s as [| c r]; cbn; [now eexists; eexists |].
  destruct (Ascii.eqb c sep); [now eexists; eexists |].
  destruct (split sep r); now eexists; eexists.
Qed.

Lemma concat_two (sep x y : string) (l : list string) :
  String.concat sep (x :: y :: l) = x ++ sep ++ String.concat sep (y :: l).
Proof. reflexivity. Qed.

(** Joining the pieces with the separator gives the string back. *)
Lemma split_join (s : string) : String.concat "," (split "," s) = s.
Proof.
  induction s as [| c r IH]; [reflexivity |].
  cbn [split]. destruct (split_cons "," r) as (h & t & E). rewrite E in *.
  destruct (Ascii.eqb_spec c ",") as [-> |].
  - rewrite concat_two, IH. reflexivity.
  - destruct t as [| y t].
    + cbn in *. now rewrite IH.
    + rewrite concat_two in *. rewrite <- IH. reflexivity.
Qed.

(** Joining the pieces with spaces replaces the commas by spaces. *)
Lemma split_join_spaces (s : string) :
  join_spaces (split "," s) = commas_to_spaces s.
Proof.
  unfold join_spaces.
  induction s as [| c r IH]; [reflexivity |].
  cbn [split commas_to_spaces]. unfold is_comma.
  destruct (split_cons "," r) as (h & t & E). rewrite E in *.
  destruct (Ascii.eqb c ",").
  - rewrite concat_two, IH. reflexivity.
  - destruct t as [| y t].
    + cbn in *. now rewrite IH.
    + rewrite concat_two in *. rewrite <- IH. reflexivity.
Qed.

Lemma split_length (s : string) :
  length (split "," s) = S (count_commas s).
Proof.
  induction s as [| c r IH]; [reflexivity |].
  cbn [split count_commas]. unfold is_comma.
  destruct (split_cons "," r) as (h & t & E). rewrite E in *.
  destruct (Ascii.eqb c ","); cbn in *; lia.
Qed.

Lemma split_pieces (s : string) :
  forallb (fun piece => negb (has_comma piece)) (split "," s) = true.
Proof.
  induction s as [| c r IH]; [reflexivity |].
  cbn [split]. destruct (split_cons "," r) as (h & t & E). rewrite E in *.
  destruct (Ascii.eqb c ",") eqn:Ec.
  - cbn [forallb has_comma negb andb]. exact IH.
  - cbn [forallb has_comma] in *. unfold is_comma. rewrite Ec. exact IH.
Qed.

Lemma commas_to_spaces_length (s : string) :
  String.length (commas_to_spaces s) = String.length s.
Proof. induction s as [| c r IH]; cbn; [reflexivity | now rewrite IH]. Qed.

Lemma commas_to_spaces_no_comma (s : string) :
  has_comma (commas_to_spaces s) = false.
Proof.
  induction s as [| c r IH]; [reflexivity |].
  cbn [commas_to_spaces has_comma]. rewrite IH. unfold is_comma.
  destruct (Ascii.eqb_spec c ","); [reflexivity |].
  destruct (Ascii.eqb_spec c ","); [contradiction | reflexivity].
Qed.

(** X1: sort appends exactly one ordering directive.  For a sort value that
    is present and not empty the directive is that value with every comma
    replaced by a space, of the same length and without a comma; for an
    absent or empty value it is "-createdAt". *)
Theorem sort_directive (api : ApiFeatures.t) :
  let spec :=
    match qs_sort (queryString api) with
    | Some (String c r) => commas_to_spaces (String c r)
    | _ => "-createdAt"
    end in
  sort api = mk (query api ++ [Sort spec])%list (queryString api) (total api)
  /\ has_comma spec = false
  /\ match qs_sort (queryString api) with
     | Some (String c r) => String.length spec = String.length (String c r)
     | _ => True
     end.
Proof.
  cbn zeta. unfold sort.
  destruct (qs_sort (queryString api)) as [[| c r] |]; cbn [truthy ToString].
  - repeat split.
  - rewrite split_join_spaces. repeat split.
    + apply commas_to_spaces_no_comma.
    + apply commas_to_spaces_length.
  - repeat split.
Qed.

(** X2: limitFields appends exactly one projection directive: the fields
    value with every comma replaced by a space when it is present and not
    empty, and "-__v" otherwise. *)
Theorem limitFields_directive (api : ApiFeatures.t) :
  let spec :=
    match qs_fields (queryString api) with
    | Some (String c r) => commas_to_spaces (String c r)
    | _ => "-__v"
    end in
  limitFields api = mk (query api ++ [Select spec])%list (queryString api) (total api)
  /\ has_comma spec = false
  /\ match qs_fields (queryString api) with
     | Some (String c r) => String.length spec = String.length (String c r)
     | _ => True
     end.
Proof.
  cbn zeta. unfold limitFields.
  destruct (qs_fields (queryString api)) as [[| c r] |]; cbn [truthy ToString].
  - repeat split.
  - rewrite split_join_spaces. repeat split.
    + apply commas_to_spaces_no_comma.
    + apply commas_to_spaces_length.
  - repeat split.
Qed.

(** X3: for a populate value that is not empty, populate appends one
    directive more than the value has commas; no path contains a comma, and
    the paths joined by commas are the value.  So an empty piece, as in
    "a,,b", gives a directive with the empty path. *)
Theorem populate_pieces (populateOptions : option (list string)) (q : Query)
    (qs : QueryString) (tot : option Z) (c : ascii) (r : string) :
  exists paths,
    query (populate populateOptions
             (mk q (with_populate (Some (String c r)) qs) tot))
    = (q ++ map Populate paths)%list
    /\ length paths = S (count_commas (String c r))
    /\ String.concat "," paths = String c r
    /\ forallb (fun path => negb (has_comma path)) paths = true.
Proof.
  exists (split "," (String c r)). split.
  - unfold populate. now rewrite fold_populate.
  - split; [apply split_length |].
    split; [apply split_join | apply split_pieces].
Qed.

(** X4: populate only adds to the handle, and a second call adds again:
    with a populate value that is not empty both calls add the same
    directives, whatever lists the caller passes; without one each call adds
    the directives of its own list. *)
Theorem populate_twice (first second : option (list string)) (api : ApiFeatures.t) :
  let paths (options : option (list string)) :=
    match qs_populate (queryString api) with
    | Some (String c r) => split "," (String c r)
    | _ => match options with Some l => l | None => [] end
    end in
  query (populate second (populate first api))
  = (query api ++ map Populate (paths first) ++ map Populate (paths second))%list.
Proof.
  cbn zeta. unfold populate. cbn [query queryString].
  rewrite !fold_populate, <- app_assoc.
  destruct (qs_populate (queryString api)) as [[| c r] |]; reflexivity.
Qed.

End Splitting.

(** * Further properties: parseInt, paginate and getPagination *)

Section Numerals.

Import ApiFeatures.


















(** X9: with a positive limit, the page count is 0 exactly for an empty
    collection, never more than the number of documents, and 1 as soon as
    one page holds them all. *)
Theorem getPagination_page_count (total limit page : Z) :
  0 <= total -> 0 < limit ->
  exists pages,
    pi_pages (getPagination total limit page) = Int pages
    /\ 0 <= pages <= total
    /\ (pages = 0 <-> total = 0)
    /\ (0 < total <= limit -> pages = 1).
Proof.
  intros Ht Hl. destruct (ceil_div_pos total limit Hl) as (c & E & H1 & H2).
  exists c. split; [exact E |]. repeat split; intros; nia.
Qed.

Lemma getPagination_page_count_witness :
  exists pages,
    pi_pages (getPagination 23 7 2) = Int pages
    /\ 0 <= pages <= 23
    /\ (pages = 0 <-> 23 = 0)
    /\ (0 < 23 <= 7 -> pages = 1).
Proof.
  apply (getPagination_page_count 23 7 2); lia.
Defined.



End Numerals.

(** * Further properties: filter *)

Section FilterMore.

Import ApiFeatures.

Lemma delete_all_filter {A : Type} (ks : list string) :
  forall m : list (string * A),
    fold_left (fun obj el => delete el obj) ks m
    = List.filter (fun kv => negb (existsb (String.eqb (fst kv)) ks)) m.
Proof.
  induction ks as [| k ks IH]; intros m; cbn [fold_left existsb].
  - induction m as [| kv m IHm]; cbn; [reflexivity | now f_equal].
  - rewrite IH. unfold delete. clear IH.
    induction m as [| kv m IHm]; cbn [List.filter]; [reflexivity |].
    destruct (String.eqb (fst kv) k); cbn [negb orb List.filter]; [exact IHm |].
    destruct (negb (existsb (String.eqb (fst kv)) ks)); now rewrite IHm.
Qed.

Lemma own_reserved (k : string) (o : option string) :
  is_reserved k = true ->
  List.filter (fun kv => negb (is_reserved (fst kv))) (own k o) = [].
Proof.
  intros H. destruct o; cbn [own List.filter fst]; [now rewrite H | reflexivity].
Qed.

(** The object that filter serializes: the properties other than the six
    control parameters, in their order. *)
Lemma queryObj_others (qs : QueryString) :
  queryObj qs = List.filter (fun kv => negb (is_reserved (fst kv))) (qs_others qs).
Proof.
  unfold queryObj. rewrite delete_all_filter.
  change (fun kv : string * json => negb (existsb (String.eqb (fst kv)) excludedFields))
    with (fun kv : string * json => negb (is_reserved (fst kv))).
  unfold properties. rewrite !filter_app, !own_reserved by reflexivity.
  reflexivity.
Qed.

Variable countDocuments : conditions -> option Z.

(** X11: the control parameters have no part in the predicate: filter
    hands the handle what it would hand it for the mapping stripped of
    page, sort, limit, fields, search and populate, and the object it
    serializes keeps the other properties in their order. *)
Theorem filter_ignores_control_parameters (api : ApiFeatures.t) :
  let stripped := mk (query api) (only (qs_others (queryString api))) (total api) in
  queryObj (queryString api)
  = List.filter (fun kv => negb (is_reserved (fst kv))) (qs_others (queryString api))
  /\ parsed_filters (queryString api) = parsed_filters (only (qs_others (queryString api)))
  /\ query (this (filter countDocuments api))
     = query (this (filter countDocuments stripped)).
Proof.
  cbn zeta.
  assert (E : parsed_filters (queryString api)
              = parsed_filters (only (qs_others (queryString api)))).
  { unfold parsed_filters. now rewrite !queryObj_others. }
  split; [apply queryObj_others |]. split; [exact E |].
  rewrite !filter_outcome. cbn [queryString query total]. rewrite <- E.
  destruct (parsed_filters (queryString api)) as [parsed |]; [| reflexivity].
  destruct (handle_date parsed); reflexivity.
Qed.

Lemma reread_untouched (s : string) : untouched s = true -> reread s = Some s.
Proof.
  unfold untouched, reread. intros H. apply String.eqb_eq in H.
  rewrite H. apply unescape_escape.
Qed.

Lemma sequence_same {A : Type} (f : A -> option A) (l : list A) :
  Forall (fun x => f x = Some x) l -> sequence (map f l) = Some l.
Proof.
  induction 1 as [| x l Hx Hl IH]; cbn; [reflexivity |].
  now rewrite Hx, IH.
Qed.

Lemma reread_value_untouched (v : json) :
  untouched_value v = true -> reread_value v = Some v.
Proof.
  induction v as [s | l IHl | m IHm] using json_induction; cbn [untouched_value reread_value].
  - intros H. now rewrite reread_untouched.
  - intros H. rewrite sequence_same; [reflexivity |].
    rewrite forallb_forall in H. rewrite Forall_forall in *.
    intros x Hx. apply IHl; [exact Hx | now apply H].
  - intros H. rewrite sequence_same; [reflexivity |].
    rewrite forallb_forall in H. rewrite Forall_forall in *.
    intros [k x] Hx. specialize (H _ Hx). cbn [fst snd] in H.
    apply andb_prop in H as [Hk Hv]. unfold reread_member. cbn [fst snd].
    pose proof (IHm _ Hx Hv) as Hr. cbn [snd] in Hr.
    rewrite (reread_untouched k Hk), Hr. reflexivity.
Qed.

Lemma existsb_eqb_in (k : string) (l : list string) :
  existsb (String.eqb k) l = true <-> In k l.
Proof.
  rewrite existsb_exists. split.
  - intros (x & Hx & E). apply String.eqb_eq in E. now subst.
  - intros H. exists k. split; [exact H | apply String.eqb_refl].
Qed.

Lemma distinct_NoDup (l : list string) : distinct l = true <-> NoDup l.
Proof.
  induction l as [| k l IH]; cbn [distinct].
  - split; [constructor | reflexivity].
  - rewrite andb_true_iff, negb_true_iff, IH. split.
    + intros [Hk Hl]. constructor; [| exact Hl].
      intros Hin. apply existsb_eqb_in in Hin. congruence.
    + intros H. inversion H as [| ? ? Hk Hl]; subst. split; [| exact Hl].
      destruct (existsb (String.eqb k) l) eqn:E; [| reflexivity].
      apply existsb_eqb_in in E. contradiction.
Qed.

Lemma set_property_fresh {A : Type} (k : string) (v : A) (m : list (string * A)) :
  ~ In k (keys m) -> set_property k v m = (m ++ [(k, v)])%list.
Proof.
  induction m as [| [k0 v0] m IH]; cbn; [reflexivity |].
  intros H. destruct (String.eqb_spec k0 k); [tauto |].
  rewrite IH by tauto. reflexivity.
Qed.

(** An object literal without two members of one key is built as it is
    written. *)
Lemma build_object_distinct (m : list (string * json)) :
  NoDup (keys m) -> build_object m = m.
Proof.
  unfold build_object.
  assert (G : forall acc, NoDup (keys (acc ++ m)) ->
              fold_left (fun m kv => set_property (fst kv) (snd kv) m) m acc
              = (acc ++ m)%list).
  { induction m as [| [k v] m IH]; intros acc H; cbn [fold_left fst snd].
    - now rewrite app_nil_r.
    - unfold keys in H. rewrite map_app in H. cbn [map fst] in H.
      pose proof (NoDup_remove_2 _ _ _ H) as Hk.
      rewrite set_property_fresh by (intros Hin; apply Hk, in_or_app; now left).
      rewrite IH; [now rewrite <- app_assoc |].
      unfold keys. rewrite !map_app, <- app_assoc. exact H. }
  intros H. exact (G [] H).
Qed.

Lemma map_same {A : Type} (f : A -> A) (l : list A) :
  Forall (fun x => f x = x) l -> map f l = l.
Proof. induction 1 as [| x l Hx Hl IH]; cbn; [reflexivity | now rewrite Hx, IH]. Qed.

Lemma normalize_distinct (v : json) : distinct_keys v = true -> normalize v = v.
Proof.
  induction v as [s | l IHl | m IHm] using json_induction; cbn [distinct_keys normalize].
  - reflexivity.
  - intros H. rewrite map_same; [reflexivity |].
    rewrite forallb_forall in H. rewrite Forall_forall in *.
    intros x Hx. apply IHl; [exact Hx | now apply H].
  - intros H. apply andb_prop in H as [Hd H].
    rewrite map_same.
    + rewrite build_object_distinct; [reflexivity | now apply distinct_NoDup].
    + rewrite forallb_forall in H. rewrite Forall_forall in *.
      intros [k x] Hx. pose proof (IHm _ Hx (H _ Hx)) as Hr. cbn [fst snd] in *.
      now rewrite Hr.
Qed.

(** X12: on parameters that the replacement leaves alone, in objects
    without a repeated key, filter changes nothing: JSON.parse returns the
    object that was serialized, and without a date entry the handle gains
    that object as its predicate. *)
Theorem filter_identity (api : ApiFeatures.t) :
  let obj := queryObj (queryString api) in
  untouched_value (JObj obj) = true ->
  distinct_keys (JObj obj) = true ->
  parsed_filters (queryString api) = Some (JObj obj)
  /\ (get_property "date" obj = None ->
      query (this (filter countDocuments api))
      = (query api ++ [Find (Fields (plain_fields obj))])%list).
Proof.
  cbn zeta. intros Hu Hd.
  assert (E : parsed_filters (queryString api) = Some (JObj (queryObj (queryString api)))).
  { unfold parsed_filters. rewrite parse_rewritten, (reread_value_untouched _ Hu).
    cbn [option_map]. now rewrite (normalize_distinct _ Hd). }
  split; [exact E |].
  intros Hdate. rewrite filter_outcome, E. cbn [handle_date]. now rewrite Hdate.
Qed.

End FilterMore.

Lemma filter_identity_witness :
  let api := ApiFeatures.constructor []
               (with_page (Some "2") (only [("name", JStr "Alice");
                                            ("tags", JArr [JStr "a b"; JStr "login"])])) in
  let obj := ApiFeatures.queryObj (ApiFeatures.queryString api) in
  ApiFeatures.parsed_filters (ApiFeatures.queryString api) = Some (JObj obj)
  /\ (get_property "date" obj = None ->
      ApiFeatures.query (ApiFeatures.this (ApiFeatures.filter (fun _ => Some 1) api))
      = (ApiFeatures.query api ++ [Find (Fields (plain_fields obj))])%list).
Proof.
  apply (filter_identity (fun _ => Some 1)); reflexivity.
Defined.

(** * Further properties: operators, errors and the date case *)

Section Operators.

Import ApiFeatures.

Lemma reread_operator (op : string) :
  is_operator op = true -> reread op = Some (String dollar op).
Proof.
  intros Hop. rewrite reread_plain by now apply operators_plain.
  rewrite replace_word by now apply operators_words.
  unfold rewritten_word. now rewrite Hop.
Qed.

Lemma sequence_map {A B : Type} (f : A -> option B) (g : A -> B) (l : list A) :
  Forall (fun x => f x = Some (g x)) l -> sequence (map f l) = Some (map g l).
Proof.
  induction 1 as [| x l Hx Hl IH]; cbn; [reflexivity |].
  now rewrite Hx, IH.
Qed.

(** X13: the intended use.  For a field that is not reserved and values
    that the replacement leaves alone, the parameters field[op]=value, with
    distinct operators op, are read as the object of the comparators $op
    under the field, in their order. *)
Theorem filter_bracketed_operators (field : string) (ops : list (string * string)) :
  is_reserved field = false ->
  untouched field = true ->
  forallb (fun ov => (is_operator (fst ov) && untouched (snd ov))%bool) ops = true ->
  distinct (map fst ops) = true ->
  parsed_filters (only [(field, JObj (map (fun ov => (fst ov, JStr (snd ov))) ops))])
  = Some (JObj [(field,
                 JObj (map (fun ov => (String dollar (fst ov), JStr (snd ov))) ops))]).
Proof.
  intros Hres Hf Hops Hd.
  unfold parsed_filters. rewrite parse_rewritten, queryObj_single.
  change (existsb (String.eqb field) excludedFields) with (is_reserved field).
  rewrite Hres. cbn [reread_value map sequence]. unfold reread_member at 1.
  cbn [fst snd reread_value]. rewrite (reread_untouched field Hf).
  rewrite map_map.
  rewrite (sequence_map _ (fun ov => (String dollar (fst ov), JStr (snd ov)))).
  - cbn [option_map normalize map fst snd build_object fold_left set_property].
    rewrite map_map. cbn [fst snd normalize].
    rewrite build_object_distinct; [reflexivity |].
    unfold keys. rewrite map_map. cbn [fst].
    apply distinct_NoDup in Hd. clear - Hd.
    induction ops as [| [op v] ops IH]; cbn [map fst] in *; [constructor |].
    inversion Hd as [| ? ? Hn Hd']; subst. constructor; [| now apply IH].
    intros Hin. apply Hn. apply in_map_iff in Hin as ([op' v'] & E & Hin).
    cbn [fst] in E. injection E as E. subst op'. apply in_map_iff. now exists (op, v').
  - rewrite forallb_forall in Hops. apply Forall_forall. intros [op v] Hin.
    specialize (Hops _ Hin). cbn [fst snd] in *.
    apply andb_prop in Hops as [Hop Hv]. unfold reread_member. cbn [fst snd reread_value].
    now rewrite (reread_operator op Hop), (reread_untouched v Hv).
Qed.

End Operators.

Lemma filter_bracketed_operators_witness :
  ApiFeatures.parsed_filters
    (only [("price", JObj (map (fun ov => (fst ov, JStr (snd ov)))
                            [("gte", "100"); ("lt", "500")]))])
  = Some (JObj [("price",
                 JObj (map (fun ov => (String dollar (fst ov), JStr (snd ov)))
                         [("gte", "100"); ("lt", "500")]))]).
Proof.
  apply (filter_bracketed_operators "price" [("gte", "100"); ("lt", "500")]);
    reflexivity.
Defined.

Section Errors.

Import ApiFeatures.

Lemma match_alternatives_first (alts : list string) (c : ascii) (s m : string) :
  forallb is_a_word alts = true ->
  match_alternatives alts (String c s) = Some m ->
  existsb (fun alt => match alt with
                      | String a _ => Ascii.eqb a c
                      | EmptyString => false
                      end) alts = true.
Proof.
  intros Halts. induction alts as [| alt alts IH]; cbn [match_alternatives existsb];
    [discriminate |].
  cbn [forallb] in Halts. apply andb_prop in Halts as [Halt Halts].
  destruct alt as [| a alt]; [discriminate |].
  cbn [strip_prefix]. destruct (Ascii.eqb a c); [intros _; reflexivity |].
  intros H. cbn [orb]. now apply IH.
Qed.

Lemma first_letter_word (c : ascii) : first_letter c = true -> is_word c = true.
Proof.
  unfold first_letter, operators. cbn [existsb].
  repeat match goal with
         | |- context [Ascii.eqb ?k c] =>
             destruct (Ascii.eqb_spec k c) as [<- |]; [reflexivity |]
         end.
  discriminate.
Qed.

(** The replacement puts its dollar signs only where a match can begin. *)
Lemma replace_from_sound (s : string) :
  forall (pw : bool) (skip : nat),
  exists marks,
    length marks = String.length s
    /\ replace_from pw skip s = weave marks s
    /\ sound_marks pw marks s = true.
Proof.
  induction s as [| c s IH]; intros pw skip.
  - exists []. repeat split.
  - cbn [replace_from]. destruct skip as [| k].
    + destruct (match_at pw (String c s)) as [m |] eqn:E.
      * destruct (IH (is_word c) (Nat.pred (String.length m))) as (marks & Hl & -> & Hs).
        exists (true :: marks). split; [cbn; now rewrite Hl |]. split; [reflexivity |].
        cbn [sound_marks implb]. rewrite Hs, andb_true_r.
        unfold match_at, at_boundary in E. cbn [head_is_word] in E.
        destruct (xorb pw (is_word c)) eqn:X; [| discriminate].
        pose proof (match_alternatives_first _ _ _ _ operators_are_words E) as F.
        change (first_letter c = true) in F. rewrite F.
        rewrite (first_letter_word c F) in X. now destruct pw.
      * destruct (IH (is_word c) 0%nat) as (marks & Hl & -> & Hs).
        exists (false :: marks). split; [cbn; now rewrite Hl |]. split; [reflexivity |].
        cbn [sound_marks implb]. exact Hs.
    + destruct (IH (is_word c) k) as (marks & Hl & -> & Hs).
      exists (false :: marks). split; [cbn; now rewrite Hl |]. split; [reflexivity |].
      cbn [sound_marks implb]. exact Hs.
Qed.

Lemma sound_marks_append (x y : string) :
  forall pw marks,
    sound_marks pw marks (x ++ y) = true ->
    sound_marks pw (firstn (String.length x) marks) x = true
    /\ sound_marks (last_is_word pw x) (skipn (String.length x) marks) y = true.
Proof.
  induction x as [| c x IH]; intros pw marks H; cbn [append String.length firstn skipn].
  - split; [reflexivity | exact H].
  - destruct marks as [| b marks]; cbn [firstn skipn sound_marks last_is_word] in *.
    + split; [reflexivity | now destruct y].
    + apply andb_prop in H as [Hb H]. apply IH in H as [H1 H2].
      rewrite Hb, H1. now split.
Qed.

Ltac split_marks' m H :=
  cbn in H;
  lazymatch type of H with
  | length _ = 0%nat => destruct m; [| discriminate H]
  | length _ = S _ =>
      let b := fresh "b" in
      destruct m as [| b m]; [discriminate H |];
      injection H as H; destruct b; split_marks' m H
  end.

(** The escape of a code unit other than a line feed and a carriage return
    stays well-formed under sound marks. *)
Lemma sound_chunk (c : ascii) (pw : bool) (marks : list bool) :
  is_line_break c = false ->
  length marks = String.length (quote_char c) ->
  sound_marks pw marks (quote_char c) = true ->
  unescape (weave marks (quote_char c)) <> None.
Proof.
  intros Hc H.
  destruct c as [b0 b1 b2 b3 b4 b5 b6 b7].
  destruct b0, b1, b2, b3, b4, b5, b6, b7; try discriminate Hc;
    match goal with
    | H : length _ = String.length ?q |- _ =>
        let q' := eval vm_compute in q in change q with q' in *
    end;
    split_marks' marks H; destruct pw;
    (intros S; vm_compute in S; try discriminate S); vm_compute; discriminate.
Qed.

Lemma unescape_sound (s : string) :
  no_line_break s = true ->
  forall pw marks,
    length marks = String.length (escape s) ->
    sound_marks pw marks (escape s) = true ->
    unescape (weave marks (escape s)) <> None.
Proof.
  induction s as [| c s IH]; intros Hs pw marks Hl Hm; [discriminate |].
  cbn [no_line_break] in Hs. apply andb_prop in Hs as [Hc Hs].
  apply negb_true_iff in Hc.
  cbn [escape] in *. rewrite length_append in Hl.
  apply sound_marks_append in Hm as [H1 H2].
  rewrite weave_append.
  assert (L1 : length (firstn (String.length (quote_char c)) marks)
               = String.length (quote_char c)) by (rewrite length_firstn; lia).
  destruct (read_chunk c _ L1) as [_ Hun]. rewrite Hun.
  pose proof (sound_chunk c pw _ Hc L1 H1) as Hch.
  destruct (unescape (weave (firstn _ marks) (quote_char c))) as [d |];
    [| contradiction].
  assert (L2 : length (skipn (String.length (quote_char c)) marks)
               = String.length (escape s)) by (rewrite length_skipn; lia).
  pose proof (IH Hs _ _ L2 H2) as Hr.
  destruct (unescape (weave (skipn _ marks) (escape s))); [discriminate | contradiction].
Qed.

(** A key or string without line feed and carriage return is read back. *)
Lemma reread_no_line_break (s : string) :
  no_line_break s = true -> exists d, reread s = Some d.
Proof.
  intros Hs. unfold reread, replace_operators.
  destruct (replace_from_sound (escape s) false 0) as (marks & Hl & -> & Hm).
  pose proof (unescape_sound s Hs false marks Hl Hm) as H.
  destruct (unescape (weave marks (escape s))) as [d |]; [now exists d | contradiction].
Qed.

Lemma sequence_some {A B : Type} (f : A -> option B) (l : list A) :
  Forall (fun x => exists y, f x = Some y) l -> exists l', sequence (map f l) = Some l'.
Proof.
  induction 1 as [| x l [y Hx] Hl [l' IH]]; cbn.
  - now eexists.
  - rewrite Hx, IH. now eexists.
Qed.

Lemma reread_value_no_line_break (v : json) :
  no_line_break_value v = true -> exists v', reread_value v = Some v'.
Proof.
  induction v as [s | l IHl | m IHm] using json_induction;
    cbn [no_line_break_value reread_value]; intros H.
  - destruct (reread_no_line_break s H) as [d ->]. now eexists.
  - destruct (sequence_some reread_value l) as [l' ->]; [| now eexists].
    rewrite forallb_forall in H. rewrite Forall_forall in *.
    intros x Hx. apply IHl; [exact Hx | now apply H].
  - destruct (sequence_some (reread_member reread_value) m) as [m' ->]; [| now eexists].
    rewrite forallb_forall in H. rewrite Forall_forall in *.
    intros [k x] Hx. specialize (H _ Hx). cbn [fst snd] in H.
    apply andb_prop in H as [Hk Hv].
    destruct (reread_no_line_break k Hk) as [k' Ek].
    destruct (IHm _ Hx Hv) as [x' Ex]. cbn [snd] in Ex.
    unfold reread_member. cbn [fst snd]. rewrite Ek, Ex. now eexists.
Qed.

Variable countDocuments : conditions -> option Z.

(** X14: filter throws a SyntaxError only on a line feed or a carriage
    return: if no key and no string of the parameters that are not reserved
    contains one, the rewritten text parses. *)
Theorem filter_syntax_error_needs_line_break (api : ApiFeatures.t) :
  no_line_break_value (JObj (queryObj (queryString api))) = true ->
  parsed_filters (queryString api) <> None
  /\ completed (filter countDocuments api) <> Thrown SyntaxError.
Proof.
  intros H. destruct (reread_value_no_line_break _ H) as [v' Hv].
  assert (E : parsed_filters (queryString api) = Some (normalize v')).
  { unfold parsed_filters. now rewrite parse_rewritten, Hv. }
  split; [now rewrite E |].
  rewrite filter_outcome, E.
  destruct (handle_date (normalize v')) as [c | e] eqn:D.
  - cbn zeta. cbn [completed].
    destruct (truthy _); [| discriminate]. destruct (countDocuments c); discriminate.
  - rewrite (handle_date_raises _ _ D). discriminate.
Qed.

Lemma set_property_keys_present {A : Type} (k : string) (v : A) (m : list (string * A)) :
  In k (keys m) -> keys (set_property k v m) = keys m.
Proof.
  induction m as [| [k0 v0] m IH]; cbn; [contradiction |].
  destruct (String.eqb_spec k0 k) as [-> |]; [reflexivity |].
  intros [E | H]; [contradiction |]. cbn. f_equal. now apply IH.
Qed.

Lemma get_set_same {A : Type} (k : string) (v : A) (m : list (string * A)) :
  get_property k (set_property k v m) = Some v.
Proof.
  induction m as [| [k0 v0] m IH]; cbn.
  - now rewrite String.eqb_refl.
  - destruct (String.eqb k0 k) eqn:E; cbn; [now rewrite String.eqb_refl |].
    now rewrite E.
Qed.

Lemma get_set_other {A : Type} (k k' : string) (v : A) (m : list (string * A)) :
  k' <> k -> get_property k' (set_property k v m) = get_property k' m.
Proof.
  intros Hk. induction m as [| [k0 v0] m IH]; cbn.
  - destruct (String.eqb_spec k k'); [congruence | reflexivity].
  - destruct (String.eqb_spec k0 k) as [-> |]; cbn.
    + destruct (String.eqb_spec k k'); [congruence | reflexivity].
    + destruct (String.eqb k0 k'); [reflexivity | exact IH].
Qed.

Lemma get_plain_fields (k : string) (m : list (string * json)) :
  get_property k (plain_fields m) = option_map Plain (get_property k m).
Proof.
  induction m as [| [k0 v0] m IH]; cbn; [reflexivity |].
  destruct (String.eqb k0 k); [reflexivity | exact IH].
Qed.

Lemma date_bound_not_object (d : json) (k : string) :
  match d with JObj _ => True | _ => date_bound d k = Ok None end.
Proof. destruct d; cbn; trivial. Qed.

(** X15: the date case touches the date entry only.  The predicate that
    filter hands to the handle has the keys that JSON.parse read, in their
    order, and under every other key the value read.  A date entry that is
    the empty string is left as it is; any other is replaced by a range of
    at most the two bounds $gte and $lte, which is empty when the date value
    is a string or an array: the parameter date=2020-01-01 becomes the
    predicate {date: {}}. *)
Theorem filter_date_entry (api : ApiFeatures.t) (m : list (string * json)) :
  parsed_filters (queryString api) = Some (JObj m) ->
  query (this (filter countDocuments api)) <> query api ->
  exists fs,
    query (this (filter countDocuments api)) = (query api ++ [Find (Fields fs)])%list
    /\ keys fs = keys m
    /\ (forall k, k <> "date" -> get_property k fs = option_map Plain (get_property k m))
    /\ match get_property "date" m with
       | None => get_property "date" fs = None
       | Some (JStr EmptyString) => get_property "date" fs = Some (Plain (JStr EmptyString))
       | Some (JObj d) =>
           exists gte lte,
             get_property "date" fs = Some (DateRange gte lte)
             /\ date_bound (JObj d) "$gte" = Ok gte
             /\ date_bound (JObj d) "$lte" = Ok lte
       | Some _ => get_property "date" fs = Some (DateRange None None)
       end.
Proof.
  intros E. rewrite filter_outcome, E.
  destruct (handle_date (JObj m)) as [c | e] eqn:D; [| intros H; now destruct H].
  intros _. cbn zeta. cbn [this query].
  cbn [handle_date] in D.
  assert (P : keys (plain_fields m) = keys m
              /\ forall k, get_property k (plain_fields m)
                           = option_map Plain (get_property k m)).
  { split; [apply plain_fields_keys | intros k; apply get_plain_fields]. }
  destruct P as [Pk Pg].
  destruct (get_property "date" m) as [d |] eqn:G.
  - destruct (truthy_json d) eqn:T.
    + destruct (date_bound d "$gte") as [gte | e1] eqn:B1; [| discriminate].
      destruct (date_bound d "$lte") as [lte | e2] eqn:B2; [| discriminate].
      injection D as <-. eexists. split; [reflexivity |].
      split.
      { rewrite set_property_keys_present; [exact Pk |].
        rewrite Pk. now apply get_property_in in G. }
      split; [intros k Hk; now rewrite get_set_other, Pg |].
      rewrite get_set_same.
      destruct d as [[| c0 s] | l | dm].
      * discriminate T.
      * cbn in B1, B2. now injection B1 as <-; injection B2 as <-.
      * cbn in B1, B2. now injection B1 as <-; injection B2 as <-.
      * now exists gte, lte.
    + injection D as <-. eexists. split; [reflexivity |].
      split; [exact Pk |]. split; [intros k _; apply Pg |].
      destruct d as [[| c0 s] | l | dm]; try discriminate T.
      now rewrite Pg, G.
  - injection D as <-. eexists. split; [reflexivity |].
    split; [exact Pk |]. split; [intros k _; apply Pg |].
    now rewrite Pg, G.
Qed.

(** A key without a dollar sign in what JSON.parse read is a key of the
    object that was serialized. *)
Lemma parsed_key_origin (qs : QueryString) (m : list (string * json)) (k : string) :
  parsed_filters qs = Some (JObj m) ->
  In k (keys m) -> has_dollar k = false -> In k (keys (queryObj qs)).
Proof.
  unfold parsed_filters. rewrite parse_rewritten. cbn [reread_value].
  destruct (sequence (map (reread_member reread_value) (queryObj qs))) as [m' |] eqn:E;
    [| discriminate].
  cbn [option_map normalize]. intros [= <-] Hin Hk.
  apply build_object_keys in Hin.
  unfold keys in Hin. rewrite map_map in Hin. cbn [fst] in Hin.
  apply in_map_iff in Hin as ([k' v'] & <- & Hin). cbn [fst] in Hk |- *.
  destruct (sequence_in _ _ _ _ E Hin) as ([k0 v0] & H0 & Hr).
  unfold reread_member in Hr. cbn [fst snd] in Hr.
  destruct (reread k0) as [k1 |] eqn:Ek; [| discriminate].
  destruct (reread_value v0); [| discriminate].
  inversion Hr; subst.
  rewrite (reread_without_dollar k0 k' Ek Hk).
  apply in_map_iff. now exists (k0, v0).
Qed.

(** X16: filter throws a TypeError only in the date case: without a date
    parameter it throws none. *)
Theorem filter_type_error_needs_date (api : ApiFeatures.t) :
  get_property "date" (queryObj (queryString api)) = None ->
  completed (filter countDocuments api) <> Thrown TypeError.
Proof.
  intros Hd. rewrite filter_outcome.
  destruct (parsed_filters (queryString api)) as [parsed |] eqn:E; [| discriminate].
  destruct (parsed_filters_keys _ _ E) as (m & -> & _).
  assert (G : get_property "date" m = None).
  { apply get_property_none. intros Hin.
    pose proof (parsed_key_origin _ _ _ E Hin eq_refl) as Ho.
    clear - Hd Ho. induction (queryObj (queryString api)) as [| [k0 v0] l IH];
      cbn in *; [contradiction |].
    destruct (String.eqb_spec k0 "date"); [discriminate |].
    destruct Ho as [E | Ho]; [contradiction | now apply IH]. }
  cbn [handle_date]. rewrite G. cbn zeta. cbn [completed].
  destruct (truthy _); [| discriminate].
  destruct (countDocuments _); discriminate.
Qed.

End Errors.

Lemma filter_syntax_error_needs_line_break_witness :
  let api := ApiFeatures.constructor []
               (only [("note", JStr "a\b gte"); ("tab", JStr (String (ascii_of_nat 9) "in"))]) in
  ApiFeatures.parsed_filters (ApiFeatures.queryString api) <> None
  /\ ApiFeatures.completed (ApiFeatures.filter (fun _ => None) api) <> Thrown SyntaxError.
Proof.
  apply (filter_syntax_error_needs_line_break (fun _ => None)). reflexivity.
Defined.

Lemma filter_date_entry_witness :
  let api := ApiFeatures.constructor []
               (only [("date", JStr "2020-01-01"); ("name", JStr "Alice")]) in
  let m := [("date", JStr "2020-01-01"); ("name", JStr "Alice")] in
  exists fs,
    ApiFeatures.query (ApiFeatures.this (ApiFeatures.filter (fun _ => None) api))
    = (ApiFeatures.query api ++ [Find (Fields fs)])%list
    /\ keys fs = keys m
    /\ (forall k, k <> "date" -> get_property k fs = option_map Plain (get_property k m))
    /\ get_property "date" fs = Some (DateRange None None).
Proof.
  apply (filter_date_entry (fun _ => None)
           (ApiFeatures.constructor []
              (only [("date", JStr "2020-01-01"); ("name", JStr "Alice")]))
           [("date", JStr "2020-01-01"); ("name", JStr "Alice")]).
  - reflexivity.
  - discriminate.
Defined.

Lemma filter_type_error_needs_date_witness :
  ApiFeatures.completed
    (ApiFeatures.filter (fun _ => None)
       (ApiFeatures.constructor [] (only [("price", JObj [("toString", JStr "x")])])))
  <> Thrown TypeError.
Proof.
  apply (filter_type_error_needs_date (fun _ => None)). reflexivity.
Defined.
